(** * Verification of the session core of client-gtk (synac GTK client)

    Shallow embedding of [src/messages.rs] (the per-channel message store)
    and [src/connections.rs] (dial protocol, connection registry, polling,
    address parsing). *)

From Stdlib Require Import ZArith.
From Stdlib Require Import Ascii String.
From stdpp Require Import base gmap list strings.

Open Scope Z_scope.

(** [Result<T, E>] of Rust. *)
Inductive result (A E : Type) : Type :=
| Ok (a : A)
| Err (e : E).
Arguments Ok {A E} a.
Arguments Err {A E} e.

(** ** synac::common::Message (the external protocol crate). *)
Record Message := mkMessage {
  author : nat;
  channel : nat;
  id : nat;
  text : list Byte.byte;
  timestamp : Z;               (* i64 *)
  timestamp_edit : option Z
}.

(** ** [[T]::binary_search_by_key], as in the standard library of the Rust
    releases this code was written for (1.23 and later):
<<
    let mut size = s.len();
    if size == 0 { return Err(0); }
    let mut base = 0usize;
    while size > 1 {
        let half = size / 2;
        let mid = base + half;
        let cmp = f(s[mid]);
        base = if cmp == Greater { base } else { mid };
        size -= half;
    }
    let cmp = f(s[base]);
    if cmp == Equal { Ok(base) } else { Err(base + (cmp == Less) as usize) }
>>
    with [f m = m.timestamp.cmp(&key)]. The loop runs at most [len]
    times, which is the fuel. *)
Definition cmp_key (m : Message) (key : Z) : comparison :=
  Z.compare (timestamp m) key.

Fixpoint bs_loop (fuel : nat) (s : list Message) (key : Z) (base size : nat) : nat :=
  match fuel with
  | O => base
  | S fuel' =>
      if decide (1 < size)%nat then
        let half := (size / 2)%nat in
        let mid := (base + half)%nat in
        let base' :=
          match s !! mid with
          | Some m => match cmp_key m key with Gt => base | _ => mid end
          | None => base
          end in
        bs_loop fuel' s key base' (size - half)%nat
      else base
  end.

Definition binary_search_by_key (s : list Message) (key : Z) : result nat nat :=
  match length s with
  | O => Err 0%nat
  | _ =>
      let base := bs_loop (length s) s key 0%nat (length s) in
      match s !! base with
      | Some m =>
          match cmp_key m key with
          | Eq => Ok base
          | Lt => Err (S base)
          | Gt => Err base
          end
      | None => Err base
      end
  end.

(** [Vec::insert(i, x)] (the index never exceeds the length here). *)
Definition vec_insert {A} (i : nat) (x : A) (l : list A) : list A :=
  take i l ++ x :: drop i l.

(** [while i > 0 && messages.get(i-1).map(|m| m.timestamp) == original { i -= 1 }] *)
Fixpoint scan_back (s : list Message) (orig : Z) (i : nat) : nat :=
  match i with
  | O => O
  | S j =>
      if decide (timestamp <$> s !! j = Some orig) then scan_back s orig j else i
  end.

(** The forward [loop] of [Messages::add]: the id test comes first, then
    the timestamp test. *)
Inductive scan_outcome :=
| Replaced (i : nat)     (* [*message.unwrap() = msg; return;] *)
| Break (i : nat).       (* [break], then [messages.insert(i, msg)] *)

Fixpoint scan_fwd (fuel : nat) (s : list Message) (msg : Message) (orig : Z)
    (i : nat) : scan_outcome :=
  match fuel with
  | O => Break i
  | S fuel' =>
      let message := s !! i in
      if decide (id <$> message = Some (id msg)) then Replaced i
      else if decide (timestamp <$> message <> Some orig) then Break i
      else scan_fwd fuel' s msg orig (S i)
  end.

(** The update of the channel's vector performed by [Messages::add]. *)
Definition add_vec (msg : Message) (messages : list Message) : list Message :=
  match binary_search_by_key messages (timestamp msg) with
  | Err i => vec_insert i msg messages
  | Ok i0 =>
      match messages !! i0 with
      | None => messages   (* unreachable: [Ok] is always in bounds *)
      | Some m0 =>
          let orig := timestamp m0 in
          let i := scan_back messages orig i0 in
          match scan_fwd (S (length messages)) messages msg orig i with
          | Replaced j => <[j := msg]> messages
          | Break j => vec_insert j msg messages
          end
      end
  end.

(** ** [struct Messages { messages: HashMap<usize, Vec<Message>> }] *)
Abbreviation Messages := (gmap nat (list Message)).

Definition messages_new : Messages := ∅.

(** [Messages::add]: [entry(msg.channel).or_insert_with(Vec::default)],
    then the vector is updated in place. *)
Definition add (msg : Message) (self : Messages) : Messages :=
  <[channel msg := add_vec msg (default [] (self !! channel msg))]> self.

(** [Messages::remove]. [HashMap] iteration order is unspecified: the
    order in which the channels are visited is the argument [order] (for
    a run of the program, an enumeration of the map's keys). *)
Fixpoint remove_in (order : list nat) (mid : nat) (self : Messages)
    : option nat * Messages :=
  match order with
  | [] => (None, self)
  | c :: rest =>
      match self !! c with
      | Some messages =>
          match list_find (fun m => id m = mid) messages with
          | Some (i, _) => (Some c, <[c := delete i messages]> self)
          | None => remove_in rest mid self
          end
      | None => remove_in rest mid self
      end
  end.

Definition remove (order : list nat) (mid : nat) (self : Messages)
    : option nat * Messages :=
  remove_in order mid self.

Definition get (self : Messages) (c : nat) : list Message :=
  default [] (self !! c).

Definition has (self : Messages) (c : nat) : bool :=
  bool_decide (is_Some (self !! c)).

(** Specification vocabulary for the store. *)
Definition sorted_ts (l : list Message) : Prop :=
  forall (i j : nat) mi mj, (i < j)%nat -> l !! i = Some mi -> l !! j = Some mj ->
    timestamp mi <= timestamp mj.

(** One step of [add] on a timeline: either an entry with the same id is
    overwritten in place, or [msg] is inserted after every entry with a
    timestamp [<=] its own and before every later one, the existing entries
    keeping their relative order; the insertion happens only when no entry
    has both the id and the timestamp of [msg]. *)
Definition add_shape (msg : Message) (l l' : list Message) : Prop :=
  (exists j m0, l !! j = Some m0 /\ id m0 = id msg /\ l' = <[j := msg]> l /\
     (forall k m, (k < j)%nat -> l !! k = Some m -> timestamp m <= timestamp msg) /\
     (forall k m, (j < k)%nat -> l !! k = Some m -> timestamp msg <= timestamp m)) \/
  (exists i, (i <= length l)%nat /\ l' = vec_insert i msg l /\
     (forall k m, (k < i)%nat -> l !! k = Some m -> timestamp m <= timestamp msg) /\
     (forall k m, (i <= k)%nat -> l !! k = Some m -> timestamp msg < timestamp m) /\
     (forall k m, l !! k = Some m -> timestamp m = timestamp msg -> id m <> id msg)).

(** Stable insertion by timestamp: after every entry with a timestamp [<=]. *)
Fixpoint ins_stable (x : Message) (l : list Message) : list Message :=
  match l with
  | [] => [x]
  | y :: l' => if Z.ltb (timestamp x) (timestamp y) then x :: l else y :: ins_stable x l'
  end.

(** The store reached from [Messages::new()] by a sequence of [add]s. *)
Definition adds (ms : list Message) : Messages :=
  fold_left (fun s m => add m s) ms messages_new.

(** The operations of the store over its lifetime. *)
Inductive store_op :=
| OpAdd (m : Message)
| OpRemove (order : list nat) (mid : nat).

Definition apply_op (s : Messages) (o : store_op) : Messages :=
  match o with
  | OpAdd m => add m s
  | OpRemove order mid => snd (remove order mid s)
  end.

Definition run_ops (s : Messages) (os : list store_op) : Messages :=
  fold_left apply_op os s.

(** Every timeline of the store is sorted by timestamp. *)
Definition all_sorted (s : Messages) : Prop :=
  forall c l, s !! c = Some l -> sorted_ts l.

(** Number of entries of a timeline holding a given id. *)
Definition count_id (mid : nat) (l : list Message) : nat :=
  length (filter (fun m => id m = mid) l).

(** * src/connections.rs *)

(** ** [std::net::SocketAddr] *)
Inductive IpAddr :=
| V4 (a : N)    (* 32-bit address *)
| V6 (a : N).   (* 128-bit address *)

Record SocketAddr := mkSocketAddr { sa_ip : IpAddr; sa_port : N }.

Global Instance IpAddr_eq_dec : EqDecision IpAddr.
Proof. solve_decision. Defined.
Global Instance SocketAddr_eq_dec : EqDecision SocketAddr.
Proof. solve_decision. Defined.

Definition sa_encode (a : SocketAddr) : bool * N * N :=
  match sa_ip a with
  | V4 x => (true, x, sa_port a)
  | V6 x => (false, x, sa_port a)
  end.
Definition sa_decode (t : bool * N * N) : SocketAddr :=
  let '(b, x, p) := t in mkSocketAddr (if b then V4 x else V6 x) p.

Global Program Instance SocketAddr_countable : Countable SocketAddr :=
  inj_countable' sa_encode sa_decode _.
Next Obligation. intros [[x|x] p]; reflexivity. Qed.

(** ** Packets of the synac protocol crate ([synac::common::Packet]); the
    variants this client inspects, the others collapsed into [OtherPacket]. *)
Record LoginSuccessData := mkLoginSuccess {
  ls_created : bool;
  ls_id : nat;
  ls_token : string
}.

Inductive Packet :=
| LoginSuccess (login : LoginSuccessData)
| Packet_Err (code : nat)                     (* [Packet::Err(code)] *)
| MessageReceive (inner : Message)            (* [event.inner] *)
| MessageDeleteReceive (mid : nat)            (* [msg.id] *)
| TypingReceive (tauthor : nat) (tchannel : nat)
| OtherPacket (tag : nat).

(** Error codes of [synac::common]; only their being distinct matters. *)
Definition ERR_LOGIN_INVALID : nat := 4.
Definition ERR_UNKNOWN_USER : nat := 12.

(** [synac::common::DEFAULT_PORT] *)
Definition DEFAULT_PORT : N := 8439.

(** [enum ConnectionError] *)
Inductive ConnectionError :=
| InvalidPacket (p : Packet)
| InvalidToken
| InvalidPassword.

(** [failure::Error]: a connection error or an error of the transport
    (I/O, TLS, framing), identified by a code. *)
Inductive Error :=
| EConnection (e : ConnectionError)
| ETransport (code : nat).

(** ** The external collaborators: the synac session and listener, the
    mirrored [State], the SQLite handle and name resolution. Every call that
    mutates its receiver ([&mut self]) returns the receiver's new value. *)
Class Transport := {
  Session : Type;
  Listener : Type;
  State : Type;
  SqlConnection : Type;
  session_new : SocketAddr -> string -> result Session Error;
  login_with_token : Session -> bool -> string -> string -> result Session Error;
  login_with_password : Session -> bool -> string -> string -> result Session Error;
  session_read : Session -> result (Packet * Session) Error;
  set_nonblocking : Session -> bool -> result Session Error;
  listener_new : Listener;
  (** [listener.try_read(session.inner_stream())] *)
  listener_try_read : Listener -> Session -> Listener * Session * result (option Packet) Error;
  state_new : State;
  state_update : State -> Packet -> State;
  (** [db.execute("UPDATE servers SET token = ? WHERE ip = ?", ..)] *)
  db_update_token : SqlConnection -> string -> SocketAddr -> result nat Error;
  (** [<(&str, u16) as ToSocketAddrs>::to_socket_addrs]: IP literal or DNS. *)
  to_socket_addrs : string -> N -> result (list SocketAddr) Error
}.

(** Modelled from the spec: [typing::Typing] (src/typing.rs is not among
    the sources). At most one entry per user: the channel the user is
    typing in and the time of the notification; [insert] upserts it. *)
Abbreviation Typing := (gmap nat (nat * N)).

Definition typing_new : Typing := ∅.

(** Modelled from the spec: [Typing::insert(user, channel)], stamping the
    entry with the current time [now]. *)
Definition typing_insert (tuser tchan : nat) (now : N) (t : Typing) : Typing :=
  <[tuser := (tchan, now)]> t.

(** Effects of a dial visible outside its result. *)
Inductive Event :=
| PasswordAsked                             (* the [password] closure was called *)
| TokenSaved (token : string) (ip : SocketAddr).

(** A computation either returns (a [Result]) or panics. *)
Inductive outcome (A : Type) :=
| Done (r : result A Error)
| Panic.
Arguments Done {A} r.
Arguments Panic {A}.

(** The dial monad: [?]-style errors, panics and an event log. *)
Definition M (A : Type) : Type := list Event -> outcome A * list Event.

Global Instance M_ret : MRet M := fun A a ev => (Done (Ok a), ev).
Global Instance M_bind : MBind M := fun A B k m ev =>
  match m ev with
  | (Done (Ok a), ev') => k a ev'
  | (Done (Err e), ev') => (Done (Err e), ev')
  | (Panic, ev') => (Panic, ev')
  end.

(** [expr?] *)
Definition lift {A} (r : result A Error) : M A := fun ev => (Done r, ev).
Definition throw {A} (e : Error) : M A := fun ev => (Done (Err e), ev).
Definition panic {A} : M A := fun ev => (Panic, ev).
Definition emit (e : Event) : M unit := fun ev => (Done (Ok tt), ev ++ [e]).

Section Connections.
Context `{T : Transport}.

(** [struct Synac] *)
Record Synac := mkSynac {
  addr : SocketAddr;
  session : Session;
  listener : Listener;
  state : State;
  current_channel : option nat;
  messages : Messages;
  typing : Typing;
  user : nat
}.

(** [Synac::new] *)
Definition Synac_new (a : SocketAddr) (s : Session) (u : nat) : Synac :=
  mkSynac a s listener_new state_new None messages_new typing_new u.

(** [Connections::connect]: [password] is what the closure returns when it
    is called; calling it is logged. *)
Definition connect (nick : string) (a : SocketAddr) (hash : string)
    (token : option string) (password : option (string * SqlConnection)) : M Synac :=
  sess ← lift (session_new a hash);
  tok ← match token with
        | Some tk =>
            sess ← lift (login_with_token sess false nick tk);
            '(p, sess) ← lift (session_read sess);
            match p with
            | LoginSuccess login =>
                sess ← lift (set_nonblocking sess true);
                mret (inl (Synac_new a sess (ls_id login)))
            | Packet_Err code =>
                if decide (code = ERR_UNKNOWN_USER \/ code = ERR_LOGIN_INVALID)
                then mret (inr sess)
                else throw (EConnection (InvalidPacket p))
            | _ => throw (EConnection (InvalidPacket p))
            end
        | None => mret (inr sess)
        end;
  match tok with
  | inl synac => mret synac
  | inr sess =>
      emit PasswordAsked;;
      match password with
      | Some (pw, db) =>
          sess ← lift (login_with_password sess false nick pw);
          '(p, sess) ← lift (session_read sess);
          match p with
          | LoginSuccess login =>
              match db_update_token db (ls_token login) a with
              | Ok _ => emit (TokenSaved (ls_token login) a)
              | Err _ => panic           (* [.unwrap()] *)
              end;;
              sess ← lift (set_nonblocking sess true);
              mret (Synac_new a sess (ls_id login))
          | Packet_Err code =>
              if decide (code = ERR_LOGIN_INVALID)
              then throw (EConnection InvalidPassword)
              else throw (EConnection (InvalidPacket p))
          | _ => throw (EConnection (InvalidPacket p))
          end
      | None => throw (EConnection InvalidToken)
      end
  end.

(** The result of a dial run from an empty log. *)
Definition dial (nick : string) (a : SocketAddr) (hash : string)
    (token : option string) (password : option (string * SqlConnection))
    : outcome Synac * list Event :=
  connect nick a hash token password [].

(** [enum Connection]: the [JoinHandle] is represented by what its thread
    returns (or that it panicked). *)
Inductive Connection :=
| Connecting (handle : outcome Synac)
| Connected (r : result Synac Error).

(** [Connection::join]: [None] is the panic of [handle.join().unwrap()];
    otherwise the new value of the entry and the result it exposes. *)
Definition join (c : Connection) : option (Connection * result Synac Error) :=
  match c with
  | Connecting (Done r) => Some (Connected r, r)
  | Connecting Panic => None
  | Connected r => Some (Connected r, r)
  end.

(** [struct Connections] *)
Record Connections := mkConnections {
  current_server : option SocketAddr;
  nick : string;
  servers : gmap SocketAddr Connection
}.

(** [str::rsplitn(2, ':')] followed by two [next()]: the text after the
    last [':'] and, when there is one, the text before it. *)
Fixpoint rsplit_colon (s : string) : string * option string :=
  match s with
  | EmptyString => (EmptyString, None)
  | String c rest =>
      match rsplit_colon rest with
      | (last, Some before) => (last, Some (String c before))
      | (last, None) =>
          if Ascii.eqb c ":"%char then (rest, Some EmptyString) else (String c last, None)
      end
  end.

(** [<u16 as FromStr>::from_str]: an optional ['+'], then at least one
    decimal digit, every prefix within [u16]. *)
Fixpoint digits_u16 (s : string) (acc : N) : option N :=
  match s with
  | EmptyString => Some acc
  | String c rest =>
      let d := (N_of_ascii c - 48)%N in
      if (48 <=? N_of_ascii c)%N && (N_of_ascii c <=? 57)%N then
        let acc' := (acc * 10 + d)%N in
        if (acc' <=? 65535)%N then digits_u16 rest acc' else None
      else None
  end.

Definition parse_u16 (s : string) : option N :=
  match s with
  | EmptyString => None
  | String c rest =>
      let digits := if Ascii.eqb c "+"%char then rest else s in
      match digits with
      | EmptyString => None
      | _ => digits_u16 digits 0
      end
  end.

(** The [let addr = match (parts.next()?, parts.next()) { .. }] of
    [parse_addr]: host and port. *)
Definition host_port (input : string) : option (string * N) :=
  let '(first, second) := rsplit_colon input in
  match second with
  | Some host => port ← parse_u16 first; Some (host, port)
  | None => Some (first, DEFAULT_PORT)
  end.

(** [addrs.next()] of a successful [to_socket_addrs()], else [None]. *)
Definition first_addr (r : result (list SocketAddr) Error) : option SocketAddr :=
  match r with
  | Ok (a :: _) => Some a
  | _ => None
  end.

(** [parse_addr] *)
Definition parse_addr (input : string) : option SocketAddr :=
  hp ← host_port input;
  first_addr (to_socket_addrs hp.1 hp.2).

(** The rows of [SELECT ip, hash, token FROM servers]. *)
Record ServerRow := mkServerRow { row_ip : string; row_hash : string; row_token : option string }.

(** The loop of [Connections::new]: every row with a parsable address gets a
    [Connecting] entry whose thread runs [connect(addr, hash, token, || None)]. *)
Fixpoint new_servers (nick0 : string) (rows : list ServerRow)
    (acc : gmap SocketAddr Connection) : gmap SocketAddr Connection :=
  match rows with
  | [] => acc
  | r :: rows =>
      match parse_addr (row_ip r) with
      | None => new_servers nick0 rows acc         (* "invalid socket address, skipping" *)
      | Some a =>
          new_servers nick0 rows
            (<[a := Connecting (dial nick0 a (row_hash r) (row_token r) None).1]> acc)
      end
  end.

(** [Connections::new] *)
Definition connections_new (rows : list ServerRow) (nick0 : string) : Connections :=
  mkConnections None nick0 (new_servers nick0 rows ∅).

(** The row whose address is [a] and that [Connections::new] inserts last
    (a later row with the same address replaces the entry). *)
Fixpoint row_for (a : SocketAddr) (rows : list ServerRow) : option ServerRow :=
  match rows with
  | [] => None
  | r :: rs =>
      match row_for a rs with
      | Some r' => Some r'
      | None => if decide (parse_addr (row_ip r) = Some a) then Some r else None
      end
  end.

(** [Connections::execute]: the callback sees the joined result; its effect
    on the session is the function [f]. *)
Definition execute (a : SocketAddr) (f : result Synac Error -> result Synac Error)
    (c : Connections) : option Connections :=
  match servers c !! a with
  | None => Some c
  | Some conn =>
      match join conn with
      | None => None
      | Some (_, r) =>
          Some (mkConnections (current_server c) (nick c) (<[a := Connected (f r)]> (servers c)))
      end
  end.

(** [Connections::insert] *)
Definition Connections_insert (a : SocketAddr) (result : Synac) (c : Connections) : Connections :=
  mkConnections (current_server c) (nick c) (<[a := Connected (Ok result)]> (servers c)).

(** [Connections::remove] *)
Definition Connections_remove (a : SocketAddr) (c : Connections) : Connections :=
  mkConnections (current_server c) (nick c) (delete a (servers c)).



(** ** [Connections::try_read] *)

(** [servers.try_lock()]: free, held by another thread, or poisoned. *)
Inductive LockState := Unlocked | Contended | Poisoned.

Inductive poll_result := PollOk | PollErr (e : Error) | PollPanic.

Record PollState (CB : Type) := mkPollState {
  ps_servers : gmap SocketAddr Connection;
  ps_cb : CB;                     (* the state captured by the callback *)
  ps_reads : list SocketAddr      (* sessions whose listener was read *)
}.
#[global] Arguments mkPollState {CB} _ _ _.
#[global] Arguments ps_servers {CB} _.
#[global] Arguments ps_cb {CB} _.
#[global] Arguments ps_reads {CB} _.

Definition with_io (s : Synac) (l : Listener) (se : Session) : Synac :=
  mkSynac (addr s) se l (state s) (current_channel s) (messages s) (typing s) (user s).
Definition with_state (s : Synac) (st : State) : Synac :=
  mkSynac (addr s) (session s) (listener s) st (current_channel s) (messages s) (typing s) (user s).
Definition with_messages (s : Synac) (ms : Messages) : Synac :=
  mkSynac (addr s) (session s) (listener s) (state s) (current_channel s) ms (typing s) (user s).
Definition with_typing (s : Synac) (t : Typing) : Synac :=
  mkSynac (addr s) (session s) (listener s) (state s) (current_channel s) (messages s) t (user s).

Section TryRead.
Context {CB : Type}.
(** The [FnMut] callback, with its captured state. *)
Context (callback : CB -> Synac -> Packet -> option nat -> CB * Synac).
(** [HashMap] iteration order of a session's message store. *)
Context (morder : Messages -> list nat).
(** The clock read by [Typing::insert]. *)
Context (now : N).

(** The [match packet] of [try_read]: store updates and affected channel. *)
Definition dispatch (synac : Synac) (packet : Packet) : Synac * option nat :=
  match packet with
  | MessageReceive inner =>
      (with_messages synac (add inner (messages synac)), Some (channel inner))
  | MessageDeleteReceive mid =>
      let '(r, ms) := remove (morder (messages synac)) mid (messages synac) in
      (with_messages synac ms, r)
  | TypingReceive a ch =>
      if decide (a <> user synac)
      then (with_typing synac (typing_insert a ch now (typing synac)), Some ch)
      else (synac, None)
  | _ => (synac, None)
  end.

(** [for server in servers.values_mut()], visiting the keys in [order]. *)
Fixpoint try_read_loop (order : list SocketAddr) (st : PollState CB)
    : poll_result * PollState CB :=
  match order with
  | [] => (PollOk, st)
  | k :: rest =>
      match ps_servers st !! k with
      | None => try_read_loop rest st
      | Some server =>
          match join server with
          | None => (PollPanic, st)
          | Some (server', Err _) =>
              try_read_loop rest (mkPollState (<[k := server']> (ps_servers st)) (ps_cb st) (ps_reads st))
          | Some (_, Ok synac) =>
              let '(l, se, read) := listener_try_read (listener synac) (session synac) in
              let synac := with_io synac l se in
              let st := mkPollState (<[k := Connected (Ok synac)]> (ps_servers st))
                                    (ps_cb st) (ps_reads st ++ [k]) in
              match read with
              | Err e => (PollErr e, st)                                (* [?] *)
              | Ok None => try_read_loop rest st
              | Ok (Some packet) =>
                  let synac := with_state synac (state_update (state synac) packet) in
                  let '(synac, ch) := dispatch synac packet in
                  let '(cb, synac) := callback (ps_cb st) synac packet ch in
                  try_read_loop rest
                    (mkPollState (<[k := Connected (Ok synac)]> (ps_servers st)) cb (ps_reads st))
              end
          end
      end
  end.

(** [Connections::try_read] *)
Definition try_read (lock : LockState) (order : list SocketAddr)
    (svs : gmap SocketAddr Connection) (cb : CB) : poll_result * PollState CB :=
  match lock with
  | Unlocked => try_read_loop order (mkPollState svs cb [])
  | Contended | Poisoned => (PollOk, mkPollState svs cb [])
  end.

End TryRead.
End Connections.


(** Strings without a [':'] (spec vocabulary for [parse_addr]). *)
Fixpoint colon_free (s : string) : bool :=
  match s with
  | EmptyString => true
  | String c rest => negb (Ascii.eqb c ":"%char) && colon_free rest
  end.

(** * src/messages.rs: [format_timestamp] *)

(** The ASCII digit of [d < 10]. *)
Definition digit_char (d : N) : ascii := ascii_of_N (48 + d).

Fixpoint fmt_dec_aux (fuel : nat) (n : N) : string :=
  match fuel with
  | O => String (digit_char n) EmptyString
  | S f =>
      if (n <? 10)%N then String (digit_char n) EmptyString
      else (fmt_dec_aux f (n / 10) ++ String (digit_char (n mod 10)) EmptyString)%string
  end.

(** [Display] of an unsigned integer ([u16], [u32], [u64]: at most 20
    decimal digits). *)
Definition fmt_N (n : N) : string := fmt_dec_aux 20 n.




(** ** A scripted transport, used to run the model on concrete inputs. The
    session holds the server's replies to [read] and the outcomes of the
    listener's non-blocking reads; a failed listener read leaves it as it
    was. *)
Definition mock_transport (open_ok nonblock_ok : bool) (replies : list Packet)
    (reads : list (result (option Packet) Error))
    (resolve : string -> N -> result (list SocketAddr) Error) : Transport := {|
  Session := list Packet * list (result (option Packet) Error);
  Listener := unit;
  State := list Packet;
  SqlConnection := unit;
  session_new _ _ := if open_ok then Ok (replies, reads) else Err (ETransport 111);
  login_with_token s _ _ _ := Ok s;
  login_with_password s _ _ _ := Ok s;
  session_read s :=
    match s.1 with
    | p :: rest => Ok (p, (rest, s.2))
    | [] => Err (ETransport 104)
    end;
  set_nonblocking s _ := if nonblock_ok then Ok s else Err (ETransport 22);
  listener_new := tt;
  listener_try_read l s :=
    match s.2 with
    | Err e :: _ => (l, s, Err e)
    | Ok p :: rest => (l, (s.1, rest), Ok p)
    | [] => (l, s, Ok None)
    end;
  state_new := [];
  state_update st p := st ++ [p];
  db_update_token _ _ _ := Ok 1%nat;
  to_socket_addrs := resolve
|}.

(** A resolver that knows the literal [10.0.0.1] and the name
    [example.com] (as 93.184.216.34). *)
Definition mock_resolve (h : string) (p : N) : result (list SocketAddr) Error :=
  if String.eqb h "10.0.0.1" then Ok [mkSocketAddr (V4 167772161) p]
  else if String.eqb h "example.com" then Ok [mkSocketAddr (V4 1572395042) p]
  else Err (ETransport 2).

(** A resolver for a host without name service. *)
Definition no_resolve (h : string) (p : N) : result (list SocketAddr) Error :=
  Err (ETransport 2).

Definition sample_login : LoginSuccessData := mkLoginSuccess false 7 "tok"%string.

Definition addr0 : SocketAddr := mkSocketAddr (V4 167772161) 8439.
Definition msg_1_7 : Message := mkMessage 0 0 1 [] 7 None.
Definition store_1_5 : Messages := add (mkMessage 0 0 1 [] 5 None) messages_new.

Definition T_poll : Transport := mock_transport true true [] [] mock_resolve.
Definition synac_poll : @Synac T_poll := @Synac_new T_poll addr0 ([], [Err (ETransport 32)]) 7.
Definition svs_poll : gmap SocketAddr (@Connection T_poll) :=
  {[ addr0 := @Connecting T_poll (Done (Ok synac_poll)) ]}.
Definition poll_cb (cb : unit) (s : @Synac T_poll) (_ : Packet) (_ : option nat) := (cb, s).
Definition msg_2_7 : Message := mkMessage 0 0 2 [] 7 None.
Definition msg_1_5_edit : Message := mkMessage 0 0 1 [Byte.x68] 5 (Some 6).
Definition T_retry : Transport :=
  mock_transport true true [Packet_Err ERR_UNKNOWN_USER; LoginSuccess sample_login] [] mock_resolve.

(** * Proofs: the message store *)

Section MessageStore.

Definition bs_inv (s : list Message) (key : Z) (base size : nat) : Prop :=
  (base + size <= length s)%nat /\ (1 <= size)%nat /\
  (base = 0%nat \/ exists m, s !! base = Some m /\ timestamp m <= key) /\
  ((base + size)%nat = length s \/
     exists m, s !! (base + size)%nat = Some m /\ key < timestamp m).

Lemma bs_loop_inv fuel s key base size :
  sorted_ts s -> bs_inv s key base size -> (size <= S fuel)%nat ->
  bs_inv s key (bs_loop fuel s key base size) 1.
Proof.
  intros Hs. revert base size.
  induction fuel as [|fuel IH]; intros base size Hinv Hsz; simpl.
  - assert (size = 1%nat) by (destruct Hinv as (_ & ? & _); lia). by subst.
  - destruct (decide (1 < size)%nat) as [Hlt|Hge].
    2:{ assert (size = 1%nat) by (destruct Hinv as (_ & ? & _); lia). by subst. }
    assert (Hh1 : (1 <= size / 2)%nat) by (apply Nat.div_le_lower_bound; lia).
    assert (Hh2 : (size / 2 < size)%nat) by (apply Nat.div_lt; lia).
    assert (Hh3 : (2 * (size / 2) <= size)%nat) by apply Nat.Div0.mul_div_le.
    destruct Hinv as (Hb & H1 & Hlo & Hhi).
    destruct (lookup_lt_is_Some_2 s (base + size / 2)%nat) as [m Hm]; [lia|].
    cbv zeta. change (Nat.divmod size 1 0 1).1 with (size / 2)%nat.
    rewrite Hm. apply IH; [|lia].
    unfold cmp_key; destruct (Z.compare_spec (timestamp m) key) as [Hc|Hc|Hc].
    + repeat split; try lia;
        first [ right; exists m; split; [done|lia]
              | replace (base + size / 2 + (size - size / 2))%nat with (base + size)%nat
                  by lia; exact Hhi ].
    + repeat split; try lia;
        first [ right; exists m; split; [done|lia]
              | replace (base + size / 2 + (size - size / 2))%nat with (base + size)%nat
                  by lia; exact Hhi ].
    + repeat split; try lia; [done|].
      destruct (decide (base + (size - size / 2) = length s)%nat) as [?|Hne]; [by left|].
      right.
      destruct (lookup_lt_is_Some_2 s (base + (size - size / 2))%nat) as [m' Hm']; [lia|].
      exists m'. split; [done|].
      destruct (decide (base + (size - size / 2) = base + size / 2)%nat) as [Heq|Hne'].
      * rewrite Heq in Hm'. congruence.
      * pose proof (Hs (base + size / 2)%nat (base + (size - size / 2))%nat m m'
                      ltac:(lia) Hm Hm'). lia.
Qed.

Lemma binary_search_spec (s : list Message) key :
  sorted_ts s ->
  match binary_search_by_key s key with
  | Ok i => exists m, s !! i = Some m /\ timestamp m = key
  | Err i => (i <= length s)%nat /\
      (forall j m, (j < i)%nat -> s !! j = Some m -> timestamp m < key) /\
      (forall j m, (i <= j)%nat -> s !! j = Some m -> key < timestamp m)
  end.
Proof.
  intros Hs. unfold binary_search_by_key.
  destruct (length s) as [|n] eqn:Hlen.
  { split; [lia|]. split; intros j m ? Hj; [lia|].
    apply lookup_lt_Some in Hj. lia. }
  rewrite <- Hlen.
  assert (Hinv : bs_inv s key (bs_loop (length s) s key 0 (length s)) 1).
  { apply bs_loop_inv; [done| |lia]. repeat split; try lia; by left. }
  revert Hinv. generalize (bs_loop (length s) s key 0 (length s)) as b.
  intros b (Hb & _ & Hlo & Hhi).
  destruct (lookup_lt_is_Some_2 s b) as [m Hm]; [lia|]. rewrite Hm.
  unfold cmp_key; destruct (Z.compare_spec (timestamp m) key) as [Hc|Hc|Hc].
  - eauto.
  - split; [lia|]. split.
    + intros j mj Hj Hmj.
      destruct (decide (j = b)) as [->|Hne]; [congruence|].
      pose proof (Hs j b mj m ltac:(lia) Hmj Hm). lia.
    + intros j mj Hj Hmj.
      destruct Hhi as [Hhi|(mh & Hmh & Hk)].
      * apply lookup_lt_Some in Hmj. lia.
      * destruct (decide (j = b + 1)%nat) as [->|Hne]; [congruence|].
        pose proof (Hs (b + 1)%nat j mh mj ltac:(lia) Hmh Hmj). lia.
  - destruct Hlo as [->|(ml & Hml & Hk)]; [|congruence || (rewrite Hm in Hml; injection Hml as ->; lia)].
    split; [lia|]. split; [intros; lia|].
    intros j mj Hj Hmj.
    destruct j as [|j]; [congruence|].
    pose proof (Hs 0%nat (S j) m mj ltac:(lia) Hm Hmj). lia.
Qed.

Lemma scan_back_spec (s : list Message) orig i :
  (scan_back s orig i <= i)%nat /\
  (forall j m, (scan_back s orig i <= j < i)%nat -> s !! j = Some m ->
     timestamp m = orig) /\
  (scan_back s orig i = 0%nat \/
     timestamp <$> s !! (scan_back s orig i - 1)%nat <> Some orig).
Proof.
  induction i as [|i IH]; simpl.
  - split; [lia|]. split; [intros; lia|]. by left.
  - destruct (decide (timestamp <$> s !! i = Some orig)) as [Heq|Hne].
    + destruct IH as (H1 & H2 & H3). split; [lia|]. split; [|done].
      intros j m Hj Hm. destruct (decide (j = i)) as [->|Hji].
      * rewrite Hm in Heq. simpl in Heq. congruence.
      * apply (H2 j m); [lia|done].
    + split; [lia|]. split; [intros; lia|]. right.
      replace (S i - 1)%nat with i by lia. done.
Qed.

Lemma scan_fwd_spec fuel (s : list Message) msg orig i :
  (i <= length s)%nat -> (length s < fuel + i)%nat ->
  match scan_fwd fuel s msg orig i with
  | Replaced j => (i <= j)%nat /\
      (forall k m, (i <= k < j)%nat -> s !! k = Some m ->
         timestamp m = orig /\ id m <> id msg) /\
      exists m, s !! j = Some m /\ id m = id msg
  | Break j => (i <= j <= length s)%nat /\
      (forall k m, (i <= k < j)%nat -> s !! k = Some m ->
         timestamp m = orig /\ id m <> id msg) /\
      (j = length s \/
         exists m, s !! j = Some m /\ timestamp m <> orig /\ id m <> id msg)
  end.
Proof.
  revert i. induction fuel as [|fuel IH]; intros i Hi Hf; [lia|]. simpl.
  destruct (s !! i) as [m|] eqn:Hm; simpl.
  - apply lookup_lt_Some in Hm as Hlt.
    destruct (decide (Some (id m) = Some (id msg))) as [Hid|Hid].
    { split; [lia|]. split; [intros; lia|]. exists m. split; [done|congruence]. }
    destruct (decide (Some (timestamp m) <> Some orig)) as [Hts|Hts].
    { split; [lia|]. split; [intros; lia|]. right. exists m.
      split; [done|]. split; congruence. }
    assert (Horig : timestamp m = orig) 
      by (destruct (decide (timestamp m = orig)) as [?|Hn]; [done|exfalso; apply Hts; congruence]).
    specialize (IH (S i) ltac:(lia) ltac:(lia)).
    destruct (scan_fwd fuel s msg orig (S i)) as [j|j];
      destruct IH as (Hj & Hrange & Hend); (split; [lia|]); (split; [|done]);
      intros k mk Hk Hmk; (destruct (decide (k = i)) as [->|Hki];
        [rewrite Hm in Hmk; injection Hmk as <-; split; congruence
        | apply (Hrange k mk); [lia|done]]).
  - apply lookup_ge_None in Hm.
    destruct (decide (None = Some (id msg))) as [|_]; [discriminate|].
    destruct (decide (@None Z <> Some orig)) as [_|Hc]; [|exfalso; apply Hc; discriminate].
    split; [lia|]. split; [intros; lia|]. left; lia.
Qed.

Lemma add_vec_shape msg (l : list Message) :
  sorted_ts l -> add_shape msg l (add_vec msg l).
Proof.
  intros Hs. unfold add_vec.
  pose proof (binary_search_spec l (timestamp msg) Hs) as Hbs.
  destruct (binary_search_by_key l (timestamp msg)) as [i0|i].
  2:{ right. exists i. destruct Hbs as (Hi & Hlo & Hhi). split; [done|]. split; [done|].
      split; [intros k m Hk Hm; pose proof (Hlo k m Hk Hm); lia|]. split; [done|].
      intros k m Hm Hts. destruct (decide (k < i)%nat).
      - pose proof (Hlo k m ltac:(lia) Hm). lia.
      - pose proof (Hhi k m ltac:(lia) Hm). lia. }
  destruct Hbs as (m0 & Hm0 & Hts0). rewrite Hm0.
  apply lookup_lt_Some in Hm0 as Hi0.
  pose proof (scan_back_spec l (timestamp m0) i0) as (Hp1 & Hp2 & Hp3).
  remember (scan_back l (timestamp m0) i0) as p eqn:Hp.
  (* entries before the run are older, entries from the run on are not *)
  assert (Hbefore : forall k m, (k < p)%nat -> l !! k = Some m -> timestamp m < timestamp m0).
  { intros k m Hk Hm. destruct Hp3 as [Hp3|Hp3]; [lia|].
    destruct (lookup_lt_is_Some_2 l (p - 1)%nat) as [mp Hmp]; [lia|].
    rewrite Hmp in Hp3. simpl in Hp3.
    assert (timestamp mp <> timestamp m0) by congruence.
    pose proof (Hs (p - 1)%nat i0 mp m0 ltac:(lia) Hmp Hm0).
    destruct (decide (k = p - 1)%nat) as [->|Hne].
    - rewrite Hmp in Hm. injection Hm as <-. lia.
    - pose proof (Hs k (p - 1)%nat m mp ltac:(lia) Hm Hmp). lia. }
  assert (Hfrom : forall k m, (p <= k)%nat -> l !! k = Some m -> timestamp m0 <= timestamp m).
  { intros k m Hk Hm.
    destruct (lookup_lt_is_Some_2 l p) as [mp Hmp]; [lia|].
    assert (Hmp0 : timestamp mp = timestamp m0).
    { destruct (decide (p = i0)) as [->|Hne]; [congruence|]. apply (Hp2 p mp); [lia|done]. }
    destruct (decide (k = p)) as [->|Hne]; [rewrite Hmp in Hm; injection Hm as <-; lia|].
    pose proof (Hs p k mp m ltac:(lia) Hmp Hm). lia. }
  pose proof (scan_fwd_spec (S (length l)) l msg (timestamp m0) p ltac:(lia) ltac:(lia))
    as Hfwd.
  destruct (scan_fwd (S (length l)) l msg (timestamp m0) p) as [j|j];
    destruct Hfwd as (Hj & Hrange & Hend).
  - left. destruct Hend as (mj & Hmj & Hid). exists j, mj.
    split; [done|]. split; [done|]. split; [done|]. split.
    + intros k m Hk Hm. destruct (decide (k < p)%nat).
      * pose proof (Hbefore k m ltac:(lia) Hm). lia.
      * destruct (Hrange k m ltac:(lia) Hm). lia.
    + intros k m Hk Hm. pose proof (Hfrom k m ltac:(lia) Hm). lia.
  - right. exists j. split; [lia|]. split; [done|]. split.
    + intros k m Hk Hm. destruct (decide (k < p)%nat).
      * pose proof (Hbefore k m ltac:(lia) Hm). lia.
      * destruct (Hrange k m ltac:(lia) Hm). lia.
    + assert (Hafter : forall k m, (j <= k)%nat -> l !! k = Some m ->
                timestamp m0 < timestamp m).
      { intros k m Hk Hm. destruct Hend as [->|(mj & Hmj & Htsj & _)].
        - apply lookup_lt_Some in Hm. lia.
        - pose proof (Hfrom j mj ltac:(lia) Hmj).
          destruct (decide (k = j)) as [->|Hne]; [rewrite Hmj in Hm; injection Hm as <-; lia|].
          pose proof (Hs j k mj m ltac:(lia) Hmj Hm). lia. }
      split; [intros k m Hk Hm; pose proof (Hafter k m Hk Hm); lia|].
      intros k m Hm Hts.
      destruct (decide (k < p)%nat); [pose proof (Hbefore k m ltac:(lia) Hm); lia|].
      destruct (decide (k < j)%nat); [by destruct (Hrange k m ltac:(lia) Hm)|].
      pose proof (Hafter k m ltac:(lia) Hm). lia.
Qed.

Lemma lookup_vec_insert {A} (l : list A) i x k :
  (i <= length l)%nat ->
  vec_insert i x l !! k =
    if decide (k < i)%nat then l !! k
    else if decide (k = i) then Some x else l !! (k - 1)%nat.
Proof.
  intros Hi. unfold vec_insert.
  destruct (decide (k < i)%nat) as [Hk|Hk].
  - rewrite lookup_app_l by (rewrite length_take_le; lia). by apply lookup_take_lt.
  - rewrite lookup_app_r by (rewrite length_take_le; lia).
    rewrite length_take_le by lia.
    destruct (decide (k = i)) as [->|Hne].
    + by replace (i - i)%nat with 0%nat by lia.
    + replace (k - i)%nat with (S (k - i - 1)) by lia. simpl.
      rewrite lookup_drop. f_equal. lia.
Qed.

Lemma add_shape_sorted msg (l l' : list Message) :
  sorted_ts l -> add_shape msg l l' -> sorted_ts l'.
Proof.
  intros Hs [(j & m0 & Hm0 & _ & -> & Hlo & Hhi)|(i & Hi & -> & Hlo & Hhi & Hnew)];
    intros a b ma mb Hab Ha Hb.
  - apply lookup_lt_Some in Hm0 as Hj.
    destruct (decide (a = j)) as [->|Hja].
    + rewrite list_lookup_insert_eq in Ha by done. injection Ha as <-.
      rewrite list_lookup_insert_ne in Hb by lia. by apply (Hhi b mb).
    + rewrite list_lookup_insert_ne in Ha by lia.
      destruct (decide (b = j)) as [->|Hjb].
      * rewrite list_lookup_insert_eq in Hb by done. injection Hb as <-.
        by apply (Hlo a ma).
      * rewrite list_lookup_insert_ne in Hb by lia. by apply (Hs a b).
  - clear Hnew. rewrite lookup_vec_insert in Ha by done. rewrite lookup_vec_insert in Hb by done.
    repeat case_decide; simplify_eq; try lia.
    + by apply (Hs a b).
    + by apply (Hlo a ma).
    + apply (Hs a (b - 1)%nat); [lia|done|done].
    + pose proof (Hhi (b - 1)%nat mb ltac:(lia) Hb). lia.
    + apply (Hs (a - 1)%nat (b - 1)%nat); [lia|done|done].
Qed.

Lemma lookup_add_same msg (s : Messages) :
  get (add msg s) (channel msg) = add_vec msg (get s (channel msg)).
Proof. unfold get, add. by rewrite lookup_insert_eq. Qed.

Lemma lookup_add_other msg (s : Messages) c :
  c <> channel msg -> get (add msg s) c = get s c.
Proof. intros Hc. unfold get, add. by rewrite lookup_insert_ne by congruence. Qed.

Lemma adds_snoc ms m : adds (ms ++ [m]) = add m (adds ms).
Proof. unfold adds. by rewrite fold_left_app. Qed.

Lemma sorted_ts_nil : sorted_ts [].
Proof. intros i j mi mj _ Hi. discriminate. Qed.

Lemma adds_sorted ms c : sorted_ts (get (adds ms) c).
Proof.
  induction ms as [|m ms IH] using rev_ind.
  - unfold adds, get, messages_new. simpl. rewrite lookup_empty. apply sorted_ts_nil.
  - rewrite adds_snoc. destruct (decide (c = channel m)) as [->|Hne].
    + rewrite lookup_add_same. apply (add_shape_sorted m (get (adds ms) (channel m))); [done|].
      by apply add_vec_shape.
    + by rewrite lookup_add_other.
Qed.

Lemma add_shape_elem msg (l l' : list Message) x :
  add_shape msg l l' -> x ∈ l' -> x = msg \/ x ∈ l.
Proof.
  intros [(j & m0 & Hm0 & _ & -> & _)|(i & Hi & -> & _)] Hx;
    apply list_elem_of_lookup in Hx as [k Hk].
  - rewrite list_lookup_insert in Hk.
    case_decide; [left; congruence|right; by eapply list_elem_of_lookup_2].
  - rewrite lookup_vec_insert in Hk by done.
    repeat case_decide; [right; by eapply list_elem_of_lookup_2|left; congruence|
                         right; by eapply list_elem_of_lookup_2].
Qed.

Lemma adds_elem ms c x : x ∈ get (adds ms) c -> x ∈ ms.
Proof.
  induction ms as [|m ms IH] using rev_ind.
  - unfold adds, get, messages_new. simpl. rewrite lookup_empty. simpl. intros Hx. by apply elem_of_nil in Hx.
  - rewrite adds_snoc. intros Hx. apply elem_of_app.
    destruct (decide (c = channel m)) as [->|Hne].
    + rewrite lookup_add_same in Hx.
      destruct (add_shape_elem _ _ _ x (add_vec_shape m _ (adds_sorted ms (channel m))) Hx)
        as [->|Hx']; [right; by apply list_elem_of_singleton|left; by apply IH].
    + rewrite lookup_add_other in Hx by done. left. by apply IH.
Qed.

Lemma vec_insert_ins_stable (l : list Message) i x :
  (i <= length l)%nat ->
  (forall k m, (k < i)%nat -> l !! k = Some m -> timestamp m <= timestamp x) ->
  (forall k m, (i <= k)%nat -> l !! k = Some m -> timestamp x < timestamp m) ->
  vec_insert i x l = ins_stable x l.
Proof.
  revert i. induction l as [|y l IH]; intros i Hi Hlo Hhi.
  - simpl in Hi. by replace i with 0%nat by lia.
  - destruct i as [|i]; simpl.
    + pose proof (Hhi 0%nat y ltac:(lia) eq_refl).
      destruct (Z.ltb_spec (timestamp x) (timestamp y)); [done|lia].
    + pose proof (Hlo 0%nat y ltac:(lia) eq_refl).
      destruct (Z.ltb_spec (timestamp x) (timestamp y)); [lia|].
      unfold vec_insert in *. simpl. f_equal. apply IH; simpl in Hi; [lia| |].
      * intros k m Hk Hm. apply (Hlo (S k) m); [lia|done].
      * intros k m Hk Hm. apply (Hhi (S k) m); [lia|done].
Qed.

Lemma adds_distinct ms c :
  NoDup (id <$> ms) ->
  get (adds ms) c = fold_left (fun l m => ins_stable m l) (filter (fun m => channel m = c) ms) [].
Proof.
  induction ms as [|m ms IH] using rev_ind; intros Hnd.
  - unfold adds, get, messages_new. simpl. by rewrite lookup_empty.
  - rewrite fmap_app in Hnd. apply NoDup_app in Hnd as (Hnd & Hdis & _).
    specialize (IH Hnd). rewrite adds_snoc, filter_app, fold_left_app, <- IH.
    destruct (decide (c = channel m)) as [->|Hne].
    + rewrite filter_cons_True, filter_nil by done. simpl. rewrite lookup_add_same.
      destruct (add_vec_shape m _ (adds_sorted ms (channel m)))
        as [(j & m0 & Hm0 & Hid & _)|(i & Hi & -> & Hlo & Hhi & _)].
      * exfalso. apply list_elem_of_lookup_2, adds_elem in Hm0.
        apply (Hdis (id m0)); [by apply list_elem_of_fmap_2|rewrite Hid; by left].
      * by apply vec_insert_ins_stable.
    + rewrite filter_cons_False, filter_nil by done. simpl.
      by rewrite lookup_add_other.
Qed.

(** Claim C2. Every timeline reached from an empty store by [add]s is
    sorted by timestamp (non-decreasing); each [add] either overwrites an
    entry with the same id in place or inserts the message after every
    entry with a timestamp [<=] its own, keeping the order of the existing
    entries, and leaves the other channels alone; when the ids are
    distinct, each timeline is the stable insertion sort by timestamp of
    that channel's messages in arrival order. *)
Theorem add_timeline_sorted_stable (ms : list Message) :
  (forall c, sorted_ts (get (adds ms) c)) /\
  (forall msg,
     add_shape msg (get (adds ms) (channel msg)) (get (adds (ms ++ [msg])) (channel msg)) /\
     forall c, c <> channel msg -> get (adds (ms ++ [msg])) c = get (adds ms) c) /\
  (NoDup (id <$> ms) -> forall c,
     get (adds ms) c =
       fold_left (fun l m => ins_stable m l) (filter (fun m => channel m = c) ms) []).
Proof.
  split; [apply adds_sorted|]. split.
  - intros msg. rewrite adds_snoc. split.
    + rewrite lookup_add_same. apply add_vec_shape, adds_sorted.
    + intros c Hc. by apply lookup_add_other.
  - intros Hnd c. by apply adds_distinct.
Qed.

Lemma filter_id_insert (l : list Message) j x y mid :
  l !! j = Some y -> id y = mid -> id x = mid ->
  filter (fun m => id m = mid) l = [y] ->
  filter (fun m => id m = mid) (<[j := x]> l) = [x].
Proof.
  intros Hy Hidy Hidx Hf.
  apply lookup_lt_Some in Hy as Hj.
  rewrite insert_take_drop by done.
  rewrite <- (take_drop_middle l j y Hy) in Hf.
  rewrite !filter_app, !filter_cons_True in * by done.
  apply app_eq_unit in Hf as [(H1 & Hf)|(_ & Hf)]; [|discriminate].
  injection Hf as H2. by rewrite H1, H2.
Qed.

Lemma filter_id_vec_insert (l : list Message) i x mid :
  id x = mid -> filter (fun m => id m = mid) l = [] ->
  filter (fun m => id m = mid) (vec_insert i x l) = [x].
Proof.
  intros Hidx Hf. unfold vec_insert.
  rewrite <- (take_drop i l) in Hf.
  rewrite filter_app in Hf. apply app_eq_nil in Hf as [H1 H2].
  by rewrite filter_app, filter_cons_True, H1, H2.
Qed.

(** Claim C1 (as amended). Two [add]s of messages with the same channel,
    id and timestamp leave exactly one entry with that id in the channel's
    timeline, the second message, provided the timeline is sorted and holds
    at most one entry with that id, of that timestamp. *)
Theorem add_twice_same_id (s : Messages) (m1 m2 : Message) :
  channel m1 = channel m2 -> id m1 = id m2 -> timestamp m1 = timestamp m2 ->
  sorted_ts (get s (channel m1)) ->
  (forall m, m ∈ get s (channel m1) -> id m = id m1 -> timestamp m = timestamp m1) ->
  (count_id (id m1) (get s (channel m1)) <= 1)%nat ->
  filter (fun m => id m = id m1) (get (add m2 (add m1 s)) (channel m1)) = [m2].
Proof.
  intros Hc Hid Hts Hs Hsame Hcount.
  set (l := get s (channel m1)) in *.
  assert (Hl1 : get (add m1 s) (channel m1) = add_vec m1 l) by apply lookup_add_same.
  assert (Hl2 : get (add m2 (add m1 s)) (channel m1) =
                add_vec m2 (get (add m1 s) (channel m1))).
  { rewrite Hc. apply lookup_add_same. }
  rewrite Hl2, Hl1.
  pose proof (add_vec_shape m1 l Hs) as Hsh1.
  assert (Hf1 : filter (fun m => id m = id m1) (add_vec m1 l) = [m1]).
  { destruct Hsh1 as [(j & m0 & Hm0 & Hid0 & -> & _)|(i & Hi & -> & _ & _ & Hnew)].
    - apply (filter_id_insert l j m1 m0); [done|done|done|].
      unfold count_id in Hcount.
      assert (Hin : m0 ∈ filter (fun m => id m = id m1) l).
      { apply list_elem_of_filter. split; [done|]. by eapply list_elem_of_lookup_2. }
      destruct (filter (fun m => id m = id m1) l) as [|a [|b t]] eqn:Hf;
        [by apply elem_of_nil in Hin|by apply list_elem_of_singleton in Hin as ->|
         simpl in Hcount; lia].
    - apply filter_id_vec_insert; [done|].
      apply elem_of_nil_inv. intros x Hx.
      apply list_elem_of_filter in Hx as [Hidx Hx].
      apply list_elem_of_lookup in Hx as [k Hk].
      apply (Hnew k x Hk); [|done].
      apply Hsame; [by eapply list_elem_of_lookup_2|done]. }
  pose proof (add_shape_sorted m1 l _ Hs (add_vec_shape m1 l Hs)) as Hs1.
  destruct (add_vec_shape m2 _ Hs1) as [(j & m0 & Hm0 & Hid0 & -> & _)|(i & _ & _ & _ & _ & Hnew)].
  - assert (Hm0' : m0 = m1).
    { assert (Hin : m0 ∈ filter (fun m => id m = id m1) (add_vec m1 l)).
      { apply list_elem_of_filter. split; [congruence|]. by eapply list_elem_of_lookup_2. }
      rewrite Hf1 in Hin. by apply list_elem_of_singleton in Hin. }
    subst m0. apply (filter_id_insert _ j m2 m1); [done|done|congruence|done].
  - exfalso.
    assert (Hin : m1 ∈ add_vec m1 l).
    { assert (m1 ∈ filter (fun m => id m = id m1) (add_vec m1 l)) as H
        by (rewrite Hf1; by left).
      by apply list_elem_of_filter in H as [_ H]. }
    apply list_elem_of_lookup in Hin as [k Hk].
    by apply (Hnew k m1 Hk).
Qed.

(** Claim C1, as stated, fails: the timeline of channel 0 holds the message
    with id 1 at timestamp 5; adding twice the message with id 1 at
    timestamp 7 leaves two entries with id 1. *)
Lemma add_twice_same_id_counterexample :
  ~ (forall (s : Messages) (m1 m2 : Message),
       channel m1 = channel m2 -> id m1 = id m2 -> timestamp m1 = timestamp m2 ->
       filter (fun m => id m = id m1) (get (add m2 (add m1 s)) (channel m1)) = [m2]).
Proof.
  intros H.
  specialize (H (add (mkMessage 0 0 1 [] 5 None) messages_new)
                (mkMessage 0 0 1 [] 7 None) (mkMessage 0 0 1 [] 7 None)
                eq_refl eq_refl eq_refl).
  vm_compute in H. discriminate H.
Qed.

Lemma remove_in_found order mid (s : Messages) c l i x :
  c ∈ order -> s !! c = Some l ->
  list_find (fun m => id m = mid) l = Some (i, x) ->
  (forall c' l' m, c' <> c -> s !! c' = Some l' -> m ∈ l' -> id m <> mid) ->
  remove_in order mid s = (Some c, <[c := delete i l]> s).
Proof.
  intros Hin Hl Hfind Hother. induction order as [|c0 order IH]; simpl.
  { by apply elem_of_nil in Hin. }
  destruct (decide (c0 = c)) as [->|Hne].
  - by rewrite Hl, Hfind.
  - apply elem_of_cons in Hin as [->|Hin]; [done|].
    destruct (s !! c0) as [l0|] eqn:Hl0; [|by apply IH].
    destruct (list_find (fun m => id m = mid) l0) as [[i0 x0]|] eqn:Hf0; [|by apply IH].
    apply list_find_Some in Hf0 as (Hx0 & Hid0 & _).
    exfalso. apply (Hother c0 l0 x0 Hne Hl0); [by eapply list_elem_of_lookup_2|done].
Qed.

Lemma remove_in_absent order mid (s : Messages) :
  (forall c l m, s !! c = Some l -> m ∈ l -> id m <> mid) ->
  remove_in order mid s = (None, s).
Proof.
  intros Habs. induction order as [|c order IH]; simpl; [done|].
  destruct (s !! c) as [l|] eqn:Hl; [|done].
  destruct (list_find (fun m => id m = mid) l) as [[i x]|] eqn:Hf; [|done].
  apply list_find_Some in Hf as (Hx & Hid & _).
  exfalso. apply (Habs c l x Hl); [by eapply list_elem_of_lookup_2|done].
Qed.

(** Claim C6. [Messages::remove], visiting the channels in any enumeration
    [order] of the map's keys: when [mid] occurs in channel [c] and in no
    other channel, it returns [Some c], deletes the first entry with [mid]
    from [c]'s timeline and leaves every other channel unchanged; when
    [mid] occurs in no channel, it returns [None] and the store is
    unchanged. *)
Theorem remove_frame (order : list nat) (s : Messages) (mid : nat) :
  (forall k, k ∈ order <-> is_Some (s !! k)) ->
  (forall c l, s !! c = Some l -> (exists m, m ∈ l /\ id m = mid) ->
     (forall c' l' m, c' <> c -> s !! c' = Some l' -> m ∈ l' -> id m <> mid) ->
     fst (remove order mid s) = Some c /\
     (exists i x, list_find (fun m => id m = mid) l = Some (i, x) /\
        snd (remove order mid s) !! c = Some (delete i l)) /\
     (forall c', c' <> c -> snd (remove order mid s) !! c' = s !! c')) /\
  ((forall c l m, s !! c = Some l -> m ∈ l -> id m <> mid) ->
     remove order mid s = (None, s)).
Proof.
  intros Horder. split.
  - intros c l Hl (m & Hm & Hidm) Hother.
    destruct (list_find (fun m => id m = mid) l) as [[i x]|] eqn:Hf.
    2:{ apply list_find_None in Hf. rewrite Forall_forall in Hf. by destruct (Hf m Hm). }
    assert (Hin : c ∈ order) by (apply Horder; by eexists).
    unfold remove. rewrite (remove_in_found order mid s c l i x Hin Hl Hf Hother). simpl.
    split; [done|]. split.
    + exists i, x. split; [done|]. by rewrite lookup_insert_eq.
    + intros c' Hc'. by rewrite lookup_insert_ne.
  - intros Habs. by apply remove_in_absent.
Qed.

Lemma remove_in_keeps_key order mid (s : Messages) c :
  is_Some (s !! c) -> is_Some (snd (remove_in order mid s) !! c).
Proof.
  intros Hc. induction order as [|c0 order IH]; simpl; [done|].
  destruct (s !! c0) as [l|]; [|done].
  destruct (list_find (fun m => id m = mid) l) as [[i x]|]; [|done].
  simpl. rewrite lookup_insert. case_decide; [by eexists|done].
Qed.

Lemma run_ops_keeps_key (s : Messages) os c :
  is_Some (s !! c) -> is_Some (run_ops s os !! c).
Proof.
  revert s. induction os as [|o os IH]; intros s Hc; simpl; [done|].
  apply IH. destruct o as [m|order mid]; simpl.
  - unfold add. rewrite lookup_insert. case_decide; [by eexists|done].
  - by apply remove_in_keeps_key.
Qed.

(** Claim C10. Once [add] has put a message into channel [c], [has c]
    stays true for every later sequence of [add] and [remove] calls, even
    when [remove] has emptied [c]'s timeline. *)
Theorem has_persists (s : Messages) (m : Message) (os : list store_op) :
  has (run_ops (add m s) os) (channel m) = true.
Proof.
  unfold has. apply bool_decide_eq_true.
  apply run_ops_keeps_key. unfold add. rewrite lookup_insert_eq. by eexists.
Qed.

End MessageStore.

(** * Proofs: the connection registry *)

Section ConnectionProofs.
Context `{T : Transport}.

Lemma join_connected c x r : join c = Some (x, r) -> x = Connected r.
Proof. destruct c as [[r'|]|r']; simpl; congruence. Qed.

Lemma new_servers_lookup nick0 rows acc a :
  new_servers nick0 rows acc !! a =
    match row_for a rows with
    | Some r => Some (Connecting (dial nick0 a (row_hash r) (row_token r) None).1)
    | None => acc !! a
    end.
Proof.
  revert acc. induction rows as [|r rows IH]; intros acc; simpl; [done|].
  destruct (parse_addr (row_ip r)) as [a'|] eqn:Hp; rewrite IH.
  - destruct (row_for a rows); [done|].
    destruct (decide (Some a' = Some a)) as [Heq|Hne].
    + injection Heq as ->. by rewrite lookup_insert_eq.
    + rewrite lookup_insert_ne; [done|congruence].
  - destruct (row_for a rows); [done|]. by destruct (decide (None = Some a)).
Qed.

(** Claim C3 (as amended). After [Connections::new], an address is in the
    map exactly when some row parses to it, with a [Connecting] entry
    running the unattended dial of the last such row; when that dial fails
    with [e], the entry holds the failure and joining it (as [execute],
    [foreach] and [try_read] do) turns it into [Connected (Err e)].
    Failed dials are stored in the map, not dropped. *)
Theorem new_failed_dial_kept (rows : list ServerRow) (nick0 : string) (a : SocketAddr) :
  servers (connections_new rows nick0) !! a =
    match row_for a rows with
    | Some r => Some (Connecting (dial nick0 a (row_hash r) (row_token r) None).1)
    | None => None
    end /\
  (forall r e, row_for a rows = Some r ->
     (dial nick0 a (row_hash r) (row_token r) None).1 = Done (Err e) ->
     servers (connections_new rows nick0) !! a = Some (Connecting (Done (Err e))) /\
     join (Connecting (Done (Err e))) = Some (Connected (Err e), Err e)).
Proof.
  unfold connections_new. simpl. rewrite new_servers_lookup.
  split; [by destruct (row_for a rows)|].
  intros r e Hr He. rewrite Hr, He. by split.
Qed.

(** Claim C4 (as amended). With a token whose login the server answers
    with [LoginSuccess], the dial never calls the password closure (the
    event log is empty); it returns the new [Synac] unless switching the
    session to non-blocking mode fails, in which case it returns that
    error. *)
Theorem connect_token_success (nick0 : string) (a : SocketAddr) (hash tk : string)
    (password : option (string * SqlConnection)) (s0 s1 s2 : Session)
    (login : LoginSuccessData) :
  session_new a hash = Ok s0 ->
  login_with_token s0 false nick0 tk = Ok s1 ->
  session_read s1 = Ok (LoginSuccess login, s2) ->
  dial nick0 a hash (Some tk) password =
    (match set_nonblocking s2 true with
     | Ok s3 => Done (Ok (Synac_new a s3 (ls_id login)))
     | Err e => Done (Err e)
     end, []).
Proof.
  intros H0 H1 H2. unfold dial, connect, mbind, M_bind, mret, M_ret, lift.
  rewrite H0, H1, H2. by destruct (set_nonblocking s2 true).
Qed.

(** Claim C5 (as amended). Without a token and with a password closure
    that returns nothing, the dial never succeeds and never panics: once
    the session is opened it calls the closure and returns [InvalidToken];
    if opening the session fails, it returns that error. *)
Theorem connect_no_credential (nick0 : string) (a : SocketAddr) (hash : string) :
  dial nick0 a hash None None =
    match session_new a hash with
    | Ok _ => (Done (Err (EConnection InvalidToken)), [PasswordAsked])
    | Err e => (Done (Err e), [])
    end.
Proof.
  unfold dial, connect, mbind, M_bind, mret, M_ret, lift, emit, throw.
  by destruct (session_new a hash).
Qed.

Section Poll.
Context {CB : Type} (callback : CB -> Synac -> Packet -> option nat -> CB * Synac)
  (morder : Messages -> list nat) (now : N).

(** Claim C7. [try_read] does nothing and returns [Ok(())] when the lock
    cannot be taken (held elsewhere or poisoned), and on an empty registry
    whatever the lock and the iteration order. *)
Theorem try_read_noop (svs : gmap SocketAddr Connection) (cb : CB) :
  (forall lock order, lock <> Unlocked ->
     try_read callback morder now lock order svs cb = (PollOk, mkPollState svs cb [])) /\
  (svs = ∅ -> forall lock order,
     try_read callback morder now lock order svs cb = (PollOk, mkPollState svs cb [])).
Proof.
  split.
  - intros [| |] order Hl; [done|done|done].
  - intros -> [| |] order; simpl; [|done|done].
    induction order as [|k order IH]; simpl; [done|]. by rewrite lookup_empty.
Qed.

Lemma try_read_loop_err order (st st' : PollState CB) e :
  NoDup order ->
  try_read_loop callback morder now order st = (PollErr e, st') ->
  exists pre k post c s l se,
    order = pre ++ k :: post /\
    ps_servers st !! k = Some c /\
    join c = Some (Connected (Ok s), Ok s) /\
    listener_try_read (listener s) (session s) = (l, se, Err e) /\
    ps_servers st' !! k = Some (Connected (Ok (with_io s l se))) /\
    (forall k', k' ∈ post -> ps_servers st' !! k' = ps_servers st !! k') /\
    (exists r, ps_reads st' = r ++ [k] /\ forall k', k' ∈ r -> k' ∈ pre \/ k' ∈ ps_reads st).
Proof.
  revert st. induction order as [|k0 order IH]; intros st Hnd Hrun; simpl in Hrun;
    [discriminate|].
  apply NoDup_cons in Hnd as [Hk0 Hnd].
  (* the recursive case, for any state that agrees with [st] off [k0] *)
  assert (Hrec : forall st1,
            (forall k, k <> k0 -> ps_servers st1 !! k = ps_servers st !! k) ->
            (forall k', k' ∈ ps_reads st1 -> k' = k0 \/ k' ∈ ps_reads st) ->
            try_read_loop callback morder now order st1 = (PollErr e, st') ->
            exists pre k post c s l se,
              k0 :: order = pre ++ k :: post /\
              ps_servers st !! k = Some c /\
              join c = Some (Connected (Ok s), Ok s) /\
              listener_try_read (listener s) (session s) = (l, se, Err e) /\
              ps_servers st' !! k = Some (Connected (Ok (with_io s l se))) /\
              (forall k', k' ∈ post -> ps_servers st' !! k' = ps_servers st !! k') /\
              (exists r, ps_reads st' = r ++ [k] /\
                 forall k', k' ∈ r -> k' ∈ pre \/ k' ∈ ps_reads st)).
  { intros st1 Hagree Hreads Hrun1.
    destruct (IH st1 Hnd Hrun1)
      as (pre & k & post & c & s & l & se & -> & Hc & Hj & Hl & Hk & Hpost & r & Hr & Hrr).
    assert (Hkk0 : k <> k0) by (intros ->; apply Hk0; apply elem_of_app; right; by left).
    exists (k0 :: pre), k, post, c, s, l, se.
    split; [done|]. split; [by rewrite <- Hagree|]. do 3 (split; [done|]). split.
    - intros k' Hk'. rewrite Hpost by done. apply Hagree.
      intros ->. apply Hk0. apply elem_of_app. right. by right.
    - exists r. split; [done|]. intros k' Hk'.
      destruct (Hrr k' Hk') as [Hin|Hin]; [left; by right|].
      destruct (Hreads k' Hin) as [->|Hin']; [left; by left|by right]. }
  destruct (ps_servers st !! k0) as [server|] eqn:Hs0.
  2:{ apply (Hrec st); [done| intros k' Hk'; by right | exact Hrun]. }
  destruct (join server) as [[server' [synac|err]]|] eqn:Hj; [| |discriminate].
  - apply join_connected in Hj as Hx. subst server'.
    destruct (listener_try_read (listener synac) (session synac)) as [[l se] read] eqn:Hl.
    destruct read as [[packet|]|e'].
    + destruct (dispatch morder now (with_state (with_io synac l se)
                  (state_update (state synac) packet)) packet) as [synac2 ch].
      destruct (callback (ps_cb st) synac2 packet ch) as [cb2 synac3].
      apply Hrec in Hrun; [done| |].
      * intros k Hk. simpl. by repeat rewrite lookup_insert_ne by congruence.
      * simpl. intros k' Hk'. apply elem_of_app in Hk' as [Hk'|Hk']; [by right|].
        left. by apply list_elem_of_singleton in Hk'.
    + apply Hrec in Hrun; [done| |].
      * intros k Hk. simpl. by repeat rewrite lookup_insert_ne by congruence.
      * simpl. intros k' Hk'. apply elem_of_app in Hk' as [Hk'|Hk']; [by right|].
        left. by apply list_elem_of_singleton in Hk'.
    + injection Hrun as -> <-.
      exists [], k0, order, server, synac, l, se. simpl.
      split; [done|]. split; [done|]. split; [done|]. split; [done|].
      split; [by rewrite lookup_insert_eq|]. split.
      * intros k' Hk'. rewrite lookup_insert_ne; [done|]. intros ->. by apply Hk0.
      * exists (ps_reads st). split; [done|]. intros k' Hk'. by right.
  - apply Hrec in Hrun; [done| |].
    + intros k Hk. simpl. by repeat rewrite lookup_insert_ne by congruence.
    + simpl. intros k' Hk'. by right.
Qed.

(** Claim C8 (as amended). When, during [try_read] on the keys visited in
    [order], the non-blocking read of the session at [k] fails with [e],
    the poll returns [Err e] at once: the sessions after [k] in [order] are
    neither joined nor read and their entries are untouched, only sessions
    up to [k] were read, and [k] stays in the map as a resolved
    [Connected (Ok _)] entry for its session, with the listener and stream
    state the failed read left (a pending entry was resolved by the join
    that precedes the read). *)
Theorem try_read_error_aborts (order : list SocketAddr) (svs : gmap SocketAddr Connection)
    (cb : CB) (e : Error) (st' : PollState CB) :
  NoDup order ->
  try_read callback morder now Unlocked order svs cb = (PollErr e, st') ->
  exists pre k post c s l se,
    order = pre ++ k :: post /\
    svs !! k = Some c /\
    join c = Some (Connected (Ok s), Ok s) /\
    listener_try_read (listener s) (session s) = (l, se, Err e) /\
    ps_servers st' !! k = Some (Connected (Ok (with_io s l se))) /\
    (forall k', k' ∈ post -> ps_servers st' !! k' = svs !! k') /\
    (exists r, ps_reads st' = r ++ [k] /\ forall k', k' ∈ r -> k' ∈ pre).
Proof.
  intros Hnd Hrun. simpl in Hrun.
  destruct (try_read_loop_err order _ st' e Hnd Hrun)
    as (pre & k & post & c & s & l & se & Ho & Hc & Hj & Hl & Hk & Hpost & r & Hr & Hrr).
  exists pre, k, post, c, s, l, se. do 6 (split; [done|]).
  exists r. split; [done|]. intros k' Hk'.
  destruct (Hrr k' Hk') as [?|Hin]; [done|]. by apply elem_of_nil in Hin.
Qed.

End Poll.

(** Claim C9 (as amended). [parse_addr] looks up ["example.com"] with
    the default port and ["example.com:9000"] with port 9000, returning the
    first address found (which carries that port) or [None] when the lookup
    yields none; a string whose port segment is not a [u16], or whose host
    does not resolve, gives [None]. The function is total: it never
    panics. *)
Theorem parse_addr_spec
    (Hport : forall h p l a, to_socket_addrs h p = Ok l -> a ∈ l -> sa_port a = p) :
  parse_addr "example.com" = first_addr (to_socket_addrs "example.com" DEFAULT_PORT) /\
  (forall a, parse_addr "example.com" = Some a -> sa_port a = DEFAULT_PORT) /\
  parse_addr "example.com:9000" = first_addr (to_socket_addrs "example.com" 9000) /\
  (forall a, parse_addr "example.com:9000" = Some a -> sa_port a = 9000%N) /\
  (forall s, (rsplit_colon s).2 <> None -> parse_u16 (rsplit_colon s).1 = None ->
     parse_addr s = None) /\
  (forall s h p, host_port s = Some (h, p) -> first_addr (to_socket_addrs h p) = None ->
     parse_addr s = None).
Proof.
  assert (Hfirst : forall h p a, first_addr (to_socket_addrs h p) = Some a -> sa_port a = p).
  { intros h p a. unfold first_addr.
    destruct (to_socket_addrs h p) as [[|a' l]|] eqn:Hr; try discriminate.
    intros [= ->]. apply (Hport h p (a :: l)); [done|by left]. }
  split; [done|]. split; [intros a; apply Hfirst|].
  split; [done|]. split; [intros a; apply Hfirst|].
  split.
  - intros s Hsep Hu. unfold parse_addr, host_port.
    destruct (rsplit_colon s) as [first [host|]]; simpl in *; [|done].
    by rewrite Hu.
  - intros s h p Hhp Hnone. unfold parse_addr. rewrite Hhp. done.
Qed.

End ConnectionProofs.

(** * Proofs: more of the message store *)

Section MessageStoreMore.

Lemma scan_fwd_replaced fuel (s : list Message) msg orig i j :
  scan_fwd fuel s msg orig i = Replaced j -> id <$> s !! j = Some (id msg).
Proof.
  revert i. induction fuel as [|fuel IH]; intros i; simpl; [discriminate|].
  case_decide as Hid; [intros [= <-]; exact Hid|].
  case_decide; [discriminate|]. apply IH.
Qed.

Lemma bs_ok_some (s : list Message) key i :
  binary_search_by_key s key = Ok i -> is_Some (s !! i).
Proof.
  unfold binary_search_by_key. destruct (length s); [discriminate|].
  destruct (s !! _) as [m|] eqn:Hm; [|discriminate].
  destruct (cmp_key m key); [intros [= <-]; by eexists|discriminate|discriminate].
Qed.

Lemma vec_insert_min {A} i (x : A) l :
  vec_insert i x l = vec_insert (min i (length l)) x l.
Proof.
  unfold vec_insert. destruct (decide (i <= length l)%nat).
  - by rewrite Nat.min_l.
  - rewrite Nat.min_r by lia. rewrite take_ge, drop_ge by lia.
    by rewrite take_ge, drop_ge by lia.
Qed.

(** What [add] can do to a timeline, whatever its order: insert, or
    overwrite an entry with the same id. *)
Lemma add_vec_cases msg (l : list Message) :
  (exists i, (i <= length l)%nat /\ add_vec msg l = vec_insert i msg l) \/
  (exists j m0, l !! j = Some m0 /\ id m0 = id msg /\ add_vec msg l = <[j := msg]> l).
Proof.
  unfold add_vec.
  destruct (binary_search_by_key l (timestamp msg)) as [i0|i] eqn:Hbs.
  - destruct (l !! i0) as [m0|] eqn:Hl.
    + destruct (scan_fwd _ l msg (timestamp m0) _) as [j|j] eqn:Hsf.
      * apply scan_fwd_replaced in Hsf.
        destruct (l !! j) as [mj|] eqn:Hj; simpl in Hsf; [|discriminate].
        injection Hsf as Hid. right. by exists j, mj.
      * left. exists (min j (length l)). split; [lia|apply vec_insert_min].
    + apply bs_ok_some in Hbs. rewrite Hl in Hbs. by destruct Hbs.
  - left. exists (min i (length l)). split; [lia|apply vec_insert_min].
Qed.

Lemma filter_other_vec_insert (l : list Message) i msg :
  filter (fun m => id m <> id msg) (vec_insert i msg l) = filter (fun m => id m <> id msg) l.
Proof.
  unfold vec_insert. rewrite filter_app, filter_cons_False by tauto.
  rewrite <- filter_app. by rewrite take_drop.
Qed.

Lemma filter_other_insert (l : list Message) j m0 msg :
  l !! j = Some m0 -> id m0 = id msg ->
  filter (fun m => id m <> id msg) (<[j := msg]> l) = filter (fun m => id m <> id msg) l.
Proof.
  intros Hj Hid. apply lookup_lt_Some in Hj as Hlt.
  rewrite insert_take_drop by done.
  pose proof (take_drop_middle l j m0 Hj) as Hm.
  set (A := take j l) in *. set (B := drop (S j) l) in *.
  rewrite <- Hm. rewrite !filter_app, !filter_cons_False; [done|intros Hne; apply Hne; congruence..].
Qed.

Lemma sorted_delete (l : list Message) i :
  sorted_ts l -> sorted_ts (delete i l).
Proof.
  intros Hs a b ma mb Hab Ha Hb.
  destruct (decide (a < i)%nat); destruct (decide (b < i)%nat).
  - rewrite list_lookup_delete_lt in Ha, Hb by done. by apply (Hs a b).
  - rewrite list_lookup_delete_lt in Ha by done.
    rewrite list_lookup_delete_ge in Hb by lia. apply (Hs a (S b)); [lia|done|done].
  - lia.
  - rewrite list_lookup_delete_ge in Ha, Hb by lia. apply (Hs (S a) (S b)); [lia|done|done].
Qed.

Lemma add_all_sorted m (s : Messages) : all_sorted s -> all_sorted (add m s).
Proof.
  intros Hs c l Hl. unfold add in Hl.
  destruct (decide (c = channel m)) as [->|Hne].
  - rewrite lookup_insert_eq in Hl. injection Hl as <-.
    assert (Hsl : sorted_ts (default [] (s !! channel m))).
    { destruct (s !! channel m) as [l0|] eqn:Hl0; simpl; [by apply (Hs _ _ Hl0)|].
      apply sorted_ts_nil. }
    apply (add_shape_sorted m _ _ Hsl). by apply add_vec_shape.
  - rewrite lookup_insert_ne in Hl by congruence. by apply (Hs c).
Qed.

Lemma remove_all_sorted order mid (s : Messages) :
  all_sorted s -> all_sorted (snd (remove order mid s)).
Proof.
  intros Hs. unfold remove. induction order as [|c0 order IH]; simpl; [done|].
  destruct (s !! c0) as [l0|] eqn:Hl0; [|done].
  destruct (list_find _ l0) as [[i x]|]; [|done].
  intros c l Hl. simpl in Hl.
  destruct (decide (c = c0)) as [->|Hne].
  - rewrite lookup_insert_eq in Hl. injection Hl as <-. apply sorted_delete. by apply (Hs c0).
  - rewrite lookup_insert_ne in Hl by congruence. by apply (Hs c).
Qed.

(** Every timeline stays sorted by timestamp under any sequence of
    [Messages::add] and [Messages::remove] calls (with any [HashMap]
    iteration order), from any store whose timelines are sorted, such as
    [Messages::new()]. *)
Theorem run_ops_sorted (s : Messages) (os : list store_op) :
  all_sorted s -> all_sorted (run_ops s os).
Proof.
  unfold run_ops. revert s. induction os as [|o os IH]; intros s Hs; simpl; [done|].
  apply IH. destruct o as [m|order mid]; simpl.
  - by apply add_all_sorted.
  - by apply remove_all_sorted.
Qed.

(** [Messages::remove] visits the channels in [order] (any [HashMap]
    iteration order). It returns [None] and leaves the store unchanged
    exactly when no visited channel holds an entry with the id; otherwise
    it returns a visited channel [c] holding the id, and the only change to
    the store is the deletion of the first entry with that id from [c]'s
    timeline. *)
Theorem remove_result (order : list nat) (mid : nat) (s : Messages) :
  match remove order mid s with
  | (None, s') => s' = s /\
      forall c l m, c ∈ order -> s !! c = Some l -> m ∈ l -> id m <> mid
  | (Some c, s') => c ∈ order /\
      exists l i x, s !! c = Some l /\ list_find (fun m => id m = mid) l = Some (i, x) /\
        s' = <[c := delete i l]> s
  end.
Proof.
  unfold remove. induction order as [|c0 order IH]; simpl.
  { split; [done|]. intros c l m Hc. by apply elem_of_nil in Hc. }
  destruct (s !! c0) as [l0|] eqn:Hl0.
  - destruct (list_find (fun m => id m = mid) l0) as [[i x]|] eqn:Hf.
    + split; [by left|]. by exists l0, i, x.
    + destruct (remove_in order mid s) as [[c|] s'].
      * destruct IH as [Hc IH]. split; [by right|exact IH].
      * destruct IH as [-> IH]. split; [done|].
        intros c l m Hc Hl Hm. apply elem_of_cons in Hc as [->|Hc]; [|by apply (IH c l)].
        rewrite Hl0 in Hl. injection Hl as <-. intros Hid.
        apply list_find_None in Hf. rewrite Forall_forall in Hf. by apply (Hf m).
  - destruct (remove_in order mid s) as [[c|] s'].
    + destruct IH as [Hc IH]. split; [by right|exact IH].
    + destruct IH as [-> IH]. split; [done|].
      intros c l m Hc Hl Hm. apply elem_of_cons in Hc as [->|Hc]; [congruence|by apply (IH c l)].
Qed.

(** [Messages::add] never drops, duplicates or reorders an entry whose id
    differs from the new message's, in any channel, and the new message is
    in its channel's timeline afterwards. This holds for every store, sorted
    or not. *)
Theorem add_keeps_others (s : Messages) (msg : Message) :
  (forall c, filter (fun m => id m <> id msg) (get (add msg s) c) =
             filter (fun m => id m <> id msg) (get s c)) /\
  msg ∈ get (add msg s) (channel msg).
Proof.
  split.
  - intros c. destruct (decide (c = channel msg)) as [->|Hne].
    + rewrite lookup_add_same.
      destruct (add_vec_cases msg (get s (channel msg)))
        as [(i & _ & ->)|(j & m0 & Hj & Hid & ->)].
      * apply filter_other_vec_insert.
      * by apply (filter_other_insert _ j m0).
    + by rewrite lookup_add_other.
  - rewrite lookup_add_same.
    destruct (add_vec_cases msg (get s (channel msg)))
      as [(i & _ & ->)|(j & m0 & Hj & Hid & ->)].
    + unfold vec_insert. apply elem_of_app. right. by left.
    + apply list_elem_of_insert. by eapply lookup_lt_Some.
Qed.

(** On a sorted timeline, [Messages::add] is an upsert: a message whose id
    the channel does not hold yet is inserted after every entry with a
    timestamp [<=] its own and before every later one; when the channel
    holds an entry with the same id and the same timestamp, an entry with
    that id is overwritten in place and the timeline keeps its length. *)
Theorem add_upsert (s : Messages) (msg : Message) :
  sorted_ts (get s (channel msg)) ->
  ((forall m, m ∈ get s (channel msg) -> id m <> id msg) ->
     exists i, (i <= length (get s (channel msg)))%nat /\
       get (add msg s) (channel msg) = vec_insert i msg (get s (channel msg)) /\
       (forall k m, (k < i)%nat -> get s (channel msg) !! k = Some m ->
          timestamp m <= timestamp msg) /\
       (forall k m, (i <= k)%nat -> get s (channel msg) !! k = Some m ->
          timestamp msg < timestamp m)) /\
  ((exists m, m ∈ get s (channel msg) /\ id m = id msg /\ timestamp m = timestamp msg) ->
     exists j m0, get s (channel msg) !! j = Some m0 /\ id m0 = id msg /\
       get (add msg s) (channel msg) = <[j := msg]> (get s (channel msg))).
Proof.
  intros Hs. rewrite lookup_add_same.
  pose proof (add_vec_shape msg _ Hs) as Hsh.
  set (l := get s (channel msg)) in *. split.
  - intros Hfresh.
    destruct Hsh as [(j & m0 & Hm0 & Hid & _)|(i & Hi & Hl' & Hlo & Hhi & _)].
    + exfalso. apply (Hfresh m0); [by eapply list_elem_of_lookup_2|done].
    + by exists i.
  - intros (m & Hm & Hid & Hts).
    destruct Hsh as [(j & m0 & Hm0 & Hid0 & Hl' & _)|(i & _ & _ & _ & _ & Hnew)].
    + by exists j, m0.
    + exfalso. apply list_elem_of_lookup in Hm as [k Hk]. by apply (Hnew k m).
Qed.

(** Adding a message whose id occurs nowhere in the store and then
    removing that id gives back the message's channel and the store as it
    was, except that the channel's key now exists (with its old timeline,
    possibly empty). Only the channel must be among those [remove]
    visits. *)
Theorem add_remove_roundtrip (order : list nat) (s : Messages) (m : Message) :
  channel m ∈ order ->
  (forall c l x, s !! c = Some l -> x ∈ l -> id x <> id m) ->
  remove order (id m) (add m s) = (Some (channel m), <[channel m := get s (channel m)]> s).
Proof.
  intros Hin Hfresh.
  set (l := get s (channel m)).
  assert (Hl : forall x, x ∈ l -> id x <> id m).
  { intros x Hx. unfold l, get in Hx.
    destruct (s !! channel m) as [l0|] eqn:Hl0; simpl in Hx; [by apply (Hfresh (channel m) l0)|].
    by apply elem_of_nil in Hx. }
  destruct (add_vec_cases m l) as [(i & Hi & Hv)|(j & m0 & Hj & Hid & _)].
  2:{ exfalso. apply (Hl m0); [by eapply list_elem_of_lookup_2|done]. }
  assert (Hadd : add m s !! channel m = Some (vec_insert i m l)).
  { unfold add. rewrite lookup_insert_eq. by rewrite <- Hv. }
  assert (Hfind : list_find (fun x => id x = id m) (vec_insert i m l) = Some (i, m)).
  { apply list_find_Some. split; [|split; [done|]].
    - rewrite lookup_vec_insert by done. repeat case_decide; [lia|done|lia].
    - intros k y Hy Hk. rewrite lookup_vec_insert in Hy by done.
      case_decide; [|lia]. apply Hl. by eapply list_elem_of_lookup_2. }
  unfold remove.
  rewrite (remove_in_found order (id m) (add m s) (channel m) _ i m Hin Hadd Hfind).
  - f_equal. unfold add. rewrite insert_insert_eq. f_equal.
    unfold vec_insert. rewrite <- (length_take_le l i) at 1 by done.
    rewrite delete_middle. apply take_drop.
  - intros c' l' x Hc' Hl' Hx. unfold add in Hl'.
    rewrite lookup_insert_ne in Hl' by congruence. by apply (Hfresh c' l').
Qed.

(** [Messages::has] tells whether a channel has an entry: [add] creates the
    entry of the message's channel and keeps every other, and [remove]
    never creates or drops one, even when it takes the last message of a
    timeline, which stays as an empty entry. *)
Theorem has_add_remove (s : Messages) (msg : Message) (order : list nat) (mid c : nat) :
  has (add msg s) c = has s c || bool_decide (c = channel msg) /\
  has (remove order mid s).2 c = has s c.
Proof.
  unfold has. split.
  - unfold add. destruct (decide (c = channel msg)) as [->|Hne].
    + rewrite lookup_insert_eq. rewrite (bool_decide_eq_true_2 (channel msg = channel msg)) by done.
      rewrite orb_true_r. by apply bool_decide_eq_true_2.
    + rewrite lookup_insert_ne by congruence.
      rewrite (bool_decide_eq_false_2 (c = channel msg)) by done. by rewrite orb_false_r.
  - unfold remove. apply bool_decide_ext. split; [|apply remove_in_keeps_key].
    induction order as [|c0 order IH]; simpl; [done|].
    destruct (s !! c0) as [l|] eqn:Hc0; [|done].
    destruct (list_find (fun m => id m = mid) l) as [[i x]|]; [|done].
    simpl. destruct (decide (c = c0)) as [->|Hne].
    + intros _. by rewrite Hc0.
    + by rewrite lookup_insert_ne by congruence.
Qed.

End MessageStoreMore.

(** * Proofs: number formatting and [format_timestamp] *)

Section Formatting.

Lemma digits_app (s1 s2 : string) acc :
  digits_u16 (s1 ++ s2)%string acc =
    match digits_u16 s1 acc with Some v => digits_u16 s2 v | None => None end.
Proof.
  revert acc. induction s1 as [|c s1 IH]; intros acc; simpl; [done|].
  destruct (_ && _); [|done]. destruct (_ <=? 65535)%N; [apply IH|done].
Qed.

Lemma digit_char_N d : (d < 10)%N -> N_of_ascii (digit_char d) = (48 + d)%N.
Proof. intros Hd. unfold digit_char. apply N_ascii_embedding. lia. Qed.

Lemma digits_digit v d :
  (d < 10)%N ->
  digits_u16 (String (digit_char d) EmptyString) v =
    if (v * 10 + d <=? 65535)%N then Some (v * 10 + d)%N else None.
Proof.
  intros Hd. simpl. rewrite digit_char_N by done.
  replace ((48 <=? 48 + d)%N && (48 + d <=? 57)%N) with true
    by (symmetry; apply andb_true_intro; split; apply N.leb_le; lia).
  replace (48 + d - 48)%N with d by lia.
  by destruct (v * 10 + d <=? 65535)%N.
Qed.

Lemma digits_fmt f n :
  (n < 10 ^ N.of_nat (S f))%N ->
  digits_u16 (fmt_dec_aux f n) 0 = if (n <=? 65535)%N then Some n else None.
Proof.
  revert n. induction f as [|f IH]; intros n Hn.
  - cbn [fmt_dec_aux]. rewrite digits_digit by (simpl in Hn; lia).
    by replace (0 * 10 + n)%N with n by lia.
  - simpl fmt_dec_aux. destruct (n <? 10)%N eqn:Hlt.
    + apply N.ltb_lt in Hlt. rewrite digits_digit by done.
      by replace (0 * 10 + n)%N with n by lia.
    + apply N.ltb_ge in Hlt. rewrite digits_app.
      assert (Hq : (n / 10 < 10 ^ N.of_nat (S f))%N).
      { apply N.Div0.div_lt_upper_bound.
        replace (N.of_nat (S (S f))) with (N.succ (N.of_nat (S f))) in Hn by lia.
        rewrite N.pow_succ_r' in Hn. lia. }
      rewrite (IH _ Hq).
      pose proof (N.div_mod n 10 ltac:(lia)) as Hdm.
      pose proof (N.mod_lt n 10 ltac:(lia)) as Hm.
      destruct (n / 10 <=? 65535)%N eqn:Hq2.
      * rewrite digits_digit by done.
        replace (n / 10 * 10 + n mod 10)%N with n by lia. done.
      * apply N.leb_gt in Hq2. destruct (n <=? 65535)%N eqn:Hn2; [|done].
        apply N.leb_le in Hn2. exfalso.
        assert (n / 10 <= n)%N by (apply N.Div0.div_le_upper_bound; lia). lia.
Qed.

Lemma fmt_head f n :
  (n < 10 ^ N.of_nat (S f))%N ->
  exists d rest, (d < 10)%N /\ fmt_dec_aux f n = String (digit_char d) rest.
Proof.
  revert n. induction f as [|f IH]; intros n Hn.
  - simpl in Hn. exists n, EmptyString. split; [lia|done].
  - simpl. destruct (n <? 10)%N eqn:Hlt.
    + apply N.ltb_lt in Hlt. by exists n, EmptyString.
    + assert (Hq : (n / 10 < 10 ^ N.of_nat (S f))%N).
      { apply N.Div0.div_lt_upper_bound.
        replace (N.of_nat (S (S f))) with (N.succ (N.of_nat (S f))) in Hn by lia.
        rewrite N.pow_succ_r' in Hn. lia. }
      destruct (IH _ Hq) as (d & rest & Hd & ->). by eexists d, _.
Qed.


Lemma colon_free_app (s1 s2 : string) :
  colon_free (s1 ++ s2)%string = colon_free s1 && colon_free s2.
Proof. induction s1 as [|c s1 IH]; simpl; [done|]. by rewrite IH, andb_assoc. Qed.

Lemma digit_not_colon d : (d < 10)%N -> Ascii.eqb (digit_char d) ":"%char = false.
Proof.
  intros Hd. apply Ascii.eqb_neq. intros Heq.
  apply (f_equal N_of_ascii) in Heq. rewrite digit_char_N in Heq by done.
  simpl in Heq. lia.
Qed.

Lemma digit_not_plus d : (d < 10)%N -> Ascii.eqb (digit_char d) "+"%char = false.
Proof.
  intros Hd. apply Ascii.eqb_neq. intros Heq.
  apply (f_equal N_of_ascii) in Heq. rewrite digit_char_N in Heq by done.
  simpl in Heq. lia.
Qed.

Lemma fmt_colon_free f n :
  (n < 10 ^ N.of_nat (S f))%N -> colon_free (fmt_dec_aux f n) = true.
Proof.
  revert n. induction f as [|f IH]; intros n Hn.
  - simpl in Hn. simpl. by rewrite digit_not_colon by lia.
  - simpl. destruct (n <? 10)%N eqn:Hlt.
    + apply N.ltb_lt in Hlt. simpl. by rewrite digit_not_colon.
    + assert (Hq : (n / 10 < 10 ^ N.of_nat (S f))%N).
      { apply N.Div0.div_lt_upper_bound.
        replace (N.of_nat (S (S f))) with (N.succ (N.of_nat (S f))) in Hn by lia.
        rewrite N.pow_succ_r' in Hn. lia. }
      rewrite colon_free_app, IH by done. simpl.
      by rewrite digit_not_colon by (apply N.mod_lt; lia).
Qed.

Lemma parse_u16_fmt n :
  (n < 10 ^ 20)%N -> parse_u16 (fmt_N n) = if (n <=? 65535)%N then Some n else None.
Proof.
  intros Hn. unfold fmt_N.
  assert (Hb : (n < 10 ^ N.of_nat 21)%N).
  { assert (10 ^ 20 <= 10 ^ N.of_nat 21)%N by (apply N.pow_le_mono_r; lia). lia. }
  rewrite <- (digits_fmt 20 n) by done.
  destruct (fmt_head 20 n Hb) as (d & rest & Hd & Heq). rewrite Heq.
  unfold parse_u16. by rewrite digit_not_plus.
Qed.


End Formatting.

(** * Proofs: more of the connections *)

Section ConnectionsMore.
Context `{T : Transport}.



(** After [Connections::insert(addr, synac)], [execute(addr, callback)]
    hands the callback [Ok(synac)] and stores what the callback leaves. *)
Theorem insert_execute (a : SocketAddr) (s : Synac) (f : result Synac Error -> result Synac Error)
    (c : Connections) :
  execute a f (Connections_insert a s c) =
    Some (mkConnections (current_server c) (nick c) (<[a := Connected (f (Ok s))]> (servers c))).
Proof.
  unfold execute, Connections_insert. simpl. rewrite lookup_insert_eq. simpl.
  by rewrite insert_insert_eq.
Qed.

(** After [Connections::remove(addr)], [execute(addr, callback)] does not
    call the callback and changes nothing; [remove] only drops that one
    entry. *)
Theorem remove_execute (a : SocketAddr) (f : result Synac Error -> result Synac Error)
    (c : Connections) :
  execute a f (Connections_remove a c) = Some (Connections_remove a c) /\
  (forall b, b <> a -> servers (Connections_remove a c) !! b = servers c !! b).
Proof.
  split.
  - unfold execute, Connections_remove. simpl. by rewrite lookup_delete_eq.
  - intros b Hb. unfold Connections_remove. simpl. by rewrite lookup_delete_ne by congruence.
Qed.




Section Poll.
Context {CB : Type} (callback : CB -> Synac -> Packet -> option nat -> CB * Synac)
  (morder : Messages -> list nat) (now : N).

Lemma try_read_loop_keys order (st : PollState CB) k :
  is_Some (ps_servers st !! k) <->
  is_Some (ps_servers (try_read_loop callback morder now order st).2 !! k).
Proof.
  revert st. induction order as [|k0 order IH]; intros st; simpl; [done|].
  destruct (ps_servers st !! k0) as [server|] eqn:Hs; [|apply IH].
  assert (Hins : forall x, is_Some (ps_servers st !! k) <-> is_Some (<[k0 := x]> (ps_servers st) !! k)).
  { intros x. rewrite lookup_insert_is_Some'. split; [by right|].
    intros [->|H]; [by eexists|done]. }
  destruct (join server) as [[x [synac|err]]|]; [|rewrite <- IH; apply Hins|done].
  destruct (listener_try_read (listener synac) (session synac)) as [[l se] [[packet|]|e]].
  - destruct (dispatch morder now _ packet) as [synac2 ch].
    destruct (callback _ synac2 packet ch) as [cb2 synac3].
    rewrite <- IH. simpl. rewrite insert_insert_eq. apply Hins.
  - rewrite <- IH. simpl. apply Hins.
  - simpl. apply Hins.
Qed.

Lemma try_read_loop_ok order (st st' : PollState CB) :
  try_read_loop callback morder now order st = (PollOk, st') ->
  forall k v, ps_servers st' !! k = Some v ->
    (exists r, v = Connected r) \/ ((k ∉ order) /\ ps_servers st !! k = Some v).
Proof.
  revert st. induction order as [|k0 order IH]; intros st Hrun k v Hv; simpl in Hrun.
  { injection Hrun as <-. right. split; [apply not_elem_of_nil|done]. }
  assert (Hins : forall st1 r, ps_servers st1 = <[k0 := Connected r]> (ps_servers st) ->
            try_read_loop callback morder now order st1 = (PollOk, st') ->
            (exists r, v = Connected r) \/ ((k ∉ k0 :: order) /\ ps_servers st !! k = Some v)).
  { intros st1 r Hst1 Hrun1. destruct (IH st1 Hrun1 k v Hv) as [Hc|[Hk Hk1]]; [by left|].
    rewrite Hst1 in Hk1. destruct (decide (k = k0)) as [->|Hne].
    - rewrite lookup_insert_eq in Hk1. left. injection Hk1 as <-. by eexists.
    - rewrite lookup_insert_ne in Hk1 by congruence. right. split; [|done].
      intros Hin. apply elem_of_cons in Hin as [->|Hin]; [done|by apply Hk]. }
  destruct (ps_servers st !! k0) as [server|] eqn:Hs.
  - destruct (join server) as [[x [synac|err]]|] eqn:Hj; [| |discriminate].
    + destruct (listener_try_read (listener synac) (session synac)) as [[l se] [[packet|]|e]];
        [|refine (Hins _ _ _ Hrun); reflexivity|discriminate].
      destruct (dispatch morder now _ packet) as [synac2 ch].
      destruct (callback _ synac2 packet ch) as [cb2 synac3].
      refine (Hins _ (Ok synac3) _ Hrun). simpl. by rewrite insert_insert_eq.
    + apply join_connected in Hj. subst x. refine (Hins _ _ _ Hrun); reflexivity.
  - destruct (IH st Hrun k v Hv) as [Hc|[Hk Hk1]]; [by left|]. right. split; [|done].
    intros Hin. apply elem_of_cons in Hin as [->|Hin]; [congruence|by apply Hk].
Qed.

(** [Connections::try_read] never adds or removes a connection, whatever
    happens; when the poll returns [Ok(())] after taking the lock, every
    connection has been joined (none is left [Connecting]). *)
Theorem try_read_joins_all (lock : LockState) (order : list SocketAddr)
    (svs : gmap SocketAddr Connection) (cb : CB) :
  (forall k, is_Some (svs !! k) <->
     is_Some (ps_servers (try_read callback morder now lock order svs cb).2 !! k)) /\
  ((try_read callback morder now lock order svs cb).1 = PollOk -> lock = Unlocked ->
   (forall k, is_Some (svs !! k) -> k ∈ order) ->
   forall k v, ps_servers (try_read callback morder now lock order svs cb).2 !! k = Some v ->
     exists r, v = Connected r).
Proof.
  split.
  - intros k. destruct lock; simpl; [apply (try_read_loop_keys order (mkPollState svs cb []))|done|done].
  - intros Hok -> Hord k v Hv. simpl in *.
    destruct (try_read_loop callback morder now order (mkPollState svs cb [])) as [res st'] eqn:Hrun.
    simpl in Hok, Hv. subst res.
    destruct (try_read_loop_ok order _ st' Hrun k v Hv) as [Hc|[Hk Hk1]]; [done|].
    exfalso. apply Hk. apply Hord. simpl in Hk1. by eexists.
Qed.


End Poll.

Ltac dial_cases :=
  repeat (simpl; match goal with
  | |- context [match ?x with _ => _ end] =>
      lazymatch x with
      | context [match _ with _ => _ end] => fail
      | _ => destruct x
      end
  end); simpl.

(** The only effects of [Connections::connect] outside its result: the
    password closure is called at most once, and the session token is
    written to the database at most once, for the dialled address, and
    only after the closure supplied a password. *)
Theorem dial_events (nick0 : string) (a : SocketAddr) (hash : string)
    (token : option string) (password : option (string * SqlConnection)) :
  (dial nick0 a hash token password).2 = [] \/
  (dial nick0 a hash token password).2 = [PasswordAsked] \/
  exists tk pw db, password = Some (pw, db) /\
    (dial nick0 a hash token password).2 = [PasswordAsked; TokenSaved tk a].
Proof.
  unfold dial, connect, mbind, M_bind, mret, M_ret, lift, throw, emit, panic.
  dial_cases; eauto 10.
Qed.

(** Every session handle [Connections::connect] returns is bound to the
    dialled address and starts fresh: no current channel, an empty message
    store, no typing entries, a new listener and a new mirrored state. *)
Theorem dial_fresh (nick0 : string) (a : SocketAddr) (hash : string)
    (token : option string) (password : option (string * SqlConnection)) (s : Synac) :
  (dial nick0 a hash token password).1 = Done (Ok s) ->
  addr s = a /\ current_channel s = None /\ messages s = messages_new /\
  typing s = typing_new /\ listener s = listener_new /\ state s = state_new.
Proof.
  unfold dial, connect, mbind, M_bind, mret, M_ret, lift, throw, emit, panic.
  dial_cases; intros H; try discriminate; injection H as <-; done.
Qed.

(** After the token phase of [Connections::connect] (no token, or a token
    the server rejected with [ERR_UNKNOWN_USER] or [ERR_LOGIN_INVALID]), the
    dial calls the password closure exactly once and continues on the same
    session: without a password it fails with [InvalidToken]; a password
    login answered by [LoginSuccess] saves the new token for the dialled
    address (or panics if the database update fails) before switching to
    non-blocking mode; [ERR_LOGIN_INVALID] gives [InvalidPassword]; any other
    reply, [ERR_UNKNOWN_USER] included, gives [InvalidPacket]. *)
Theorem dial_password_phase (nick0 : string) (a : SocketAddr) (hash : string)
    (token : option string) (password : option (string * SqlConnection)) (s0 sP : Session) :
  session_new a hash = Ok s0 ->
  (token = None /\ sP = s0) \/
  (exists tk s1 code, token = Some tk /\ login_with_token s0 false nick0 tk = Ok s1 /\
     session_read s1 = Ok (Packet_Err code, sP) /\
     (code = ERR_UNKNOWN_USER \/ code = ERR_LOGIN_INVALID)) ->
  (password = None ->
     dial nick0 a hash token password = (Done (Err (EConnection InvalidToken)), [PasswordAsked])) /\
  (forall pw db e, password = Some (pw, db) -> login_with_password sP false nick0 pw = Err e ->
     dial nick0 a hash token password = (Done (Err e), [PasswordAsked])) /\
  (forall pw db s3 s4 login, password = Some (pw, db) ->
     login_with_password sP false nick0 pw = Ok s3 ->
     session_read s3 = Ok (LoginSuccess login, s4) ->
     dial nick0 a hash token password =
       match db_update_token db (ls_token login) a with
       | Ok _ =>
           (match set_nonblocking s4 true with
            | Ok s5 => Done (Ok (Synac_new a s5 (ls_id login)))
            | Err e => Done (Err e)
            end, [PasswordAsked; TokenSaved (ls_token login) a])
       | Err _ => (Panic, [PasswordAsked])
       end) /\
  (forall pw db s3 s4, password = Some (pw, db) ->
     login_with_password sP false nick0 pw = Ok s3 ->
     session_read s3 = Ok (Packet_Err ERR_LOGIN_INVALID, s4) ->
     dial nick0 a hash token password =
       (Done (Err (EConnection InvalidPassword)), [PasswordAsked])) /\
  (forall pw db s3 s4 p, password = Some (pw, db) ->
     login_with_password sP false nick0 pw = Ok s3 ->
     session_read s3 = Ok (p, s4) ->
     (forall login, p <> LoginSuccess login) -> p <> Packet_Err ERR_LOGIN_INVALID ->
     dial nick0 a hash token password =
       (Done (Err (EConnection (InvalidPacket p))), [PasswordAsked])).
Proof.
  intros H0 Hphase.
  assert (Hd : forall k : (Session -> M Synac),
    (sess ← lift (session_new a hash);
     tok ← match token with
           | Some tk =>
               sess ← lift (login_with_token sess false nick0 tk);
               '(p, sess) ← lift (session_read sess);
               match p with
               | LoginSuccess login =>
                   sess ← lift (set_nonblocking sess true);
                   mret (inl (Synac_new a sess (ls_id login)))
               | Packet_Err code =>
                   if decide (code = ERR_UNKNOWN_USER \/ code = ERR_LOGIN_INVALID)
                   then mret (inr sess)
                   else throw (EConnection (InvalidPacket p))
               | _ => throw (EConnection (InvalidPacket p))
               end
           | None => mret (inr sess)
           end;
     match tok with
     | inl synac => mret synac
     | inr sess => k sess
     end) [] = k sP []).
  { intros k. unfold mbind, M_bind, mret, M_ret, lift, throw. rewrite H0.
    destruct Hphase as [[-> ->]|(tk & s1 & code & -> & H1 & H2 & Hc)]; [done|].
    rewrite H1, H2. by rewrite decide_True by done. }
  unfold dial, connect. rewrite Hd.
  unfold mbind, M_bind, mret, M_ret, lift, throw, emit, panic. simpl.
  split; [by intros ->|].
  split; [intros pw db e -> He; by rewrite He|].
  split.
  - intros pw db s3 s4 login -> H3 H4. rewrite H3, H4. simpl.
    destruct (db_update_token db (ls_token login) a); [|done].
    by destruct (set_nonblocking s4 true).
  - split.
    + intros pw db s3 s4 -> H3 H4. rewrite H3, H4. simpl. by rewrite ?decide_True.
    + intros pw db s3 s4 p -> H3 H4 Hnot H4'. rewrite H3, H4.
      destruct p as [login|code| | | | ]; try done.
      * by destruct (Hnot login).
      * simpl. rewrite decide_False by congruence. done.
Qed.

(** A token login of [Connections::connect] answered by anything but
    [LoginSuccess], [ERR_UNKNOWN_USER] or [ERR_LOGIN_INVALID] fails the
    dial with [InvalidPacket] of that reply, without calling the password
    closure. *)
Theorem dial_token_other_reply (nick0 : string) (a : SocketAddr) (hash tk : string)
    (password : option (string * SqlConnection)) (s0 s1 s2 : Session) (p : Packet) :
  session_new a hash = Ok s0 ->
  login_with_token s0 false nick0 tk = Ok s1 ->
  session_read s1 = Ok (p, s2) ->
  (forall login, p <> LoginSuccess login) ->
  p <> Packet_Err ERR_UNKNOWN_USER -> p <> Packet_Err ERR_LOGIN_INVALID ->
  dial nick0 a hash (Some tk) password = (Done (Err (EConnection (InvalidPacket p))), []).
Proof.
  intros H0 H1 H2 Hl H12 H4.
  unfold dial, connect, mbind, M_bind, mret, M_ret, lift, throw.
  rewrite H0, H1, H2.
  destruct p as [login|code| | | | ]; try done.
  - by destruct (Hl login).
  - rewrite decide_False; [done|]. intros [->| ->]; auto.
Qed.

Lemma rsplit_colon_free s : colon_free s = true -> rsplit_colon s = (s, None).
Proof.
  induction s as [|c s IH]; [done|]. simpl.
  intros [Hc Hs]%andb_prop. rewrite IH by done. apply negb_true_iff in Hc. by rewrite Hc.
Qed.

Lemma rsplit_colon_app h p :
  colon_free p = true -> rsplit_colon (h ++ String ":" p)%string = (p, Some h).
Proof.
  intros Hp. induction h as [|c h IH].
  - simpl. by rewrite rsplit_colon_free.
  - change (rsplit_colon (String c (h ++ String ":" p)) = (p, Some (String c h))).
    simpl. by rewrite IH.
Qed.

(** [parse_addr] splits its input at the last [':']: with a colon-free
    suffix, the prefix (which may itself hold colons, as in ["[::1]"]) is
    resolved with the suffix parsed as a [u16], and the address is [None]
    when the suffix is no [u16]; an input without any [':'] is resolved
    whole with [DEFAULT_PORT]. *)
Theorem parse_addr_split (h p s : string) :
  (colon_free p = true ->
     host_port (h ++ String ":" p)%string = (fun n => (h, n)) <$> parse_u16 p /\
     parse_addr (h ++ String ":" p)%string =
       match parse_u16 p with
       | Some n => first_addr (to_socket_addrs h n)
       | None => None
       end) /\
  (colon_free s = true ->
     host_port s = Some (s, DEFAULT_PORT) /\
     parse_addr s = first_addr (to_socket_addrs s DEFAULT_PORT)).
Proof.
  split.
  - intros Hp. unfold parse_addr, host_port. rewrite rsplit_colon_app by done.
    simpl. by destruct (parse_u16 p).
  - intros Hs. unfold parse_addr, host_port. by rewrite rsplit_colon_free.
Qed.

(** Printing a port in decimal after a host and a [':'] and handing the
    string to [parse_addr] resolves that host and port exactly when the
    port fits a [u16]; a larger number (of at most 20 digits, the size of a
    [u64]) gives [None]. *)
Theorem parse_addr_port_roundtrip (h : string) (n : N) :
  ((n <= 65535)%N ->
     host_port (h ++ ":" ++ fmt_N n)%string = Some (h, n) /\
     parse_addr (h ++ ":" ++ fmt_N n)%string = first_addr (to_socket_addrs h n)) /\
  ((65535 < n < 10 ^ 20)%N ->
     host_port (h ++ ":" ++ fmt_N n)%string = None /\
     parse_addr (h ++ ":" ++ fmt_N n)%string = None).
Proof.
  assert (Hcf : (n < 10 ^ 20)%N -> colon_free (fmt_N n) = true).
  { intros Hn. apply fmt_colon_free.
    assert (10 ^ 20 <= 10 ^ N.of_nat 21)%N by (apply N.pow_le_mono_r; lia). lia. }
  change (h ++ ":" ++ fmt_N n)%string with (h ++ String ":" (fmt_N n))%string.
  split.
  - intros Hn. unfold parse_addr, host_port.
    rewrite rsplit_colon_app by (apply Hcf; lia).
    rewrite parse_u16_fmt by lia. rewrite (proj2 (N.leb_le n 65535)) by done. done.
  - intros Hn. unfold parse_addr, host_port.
    rewrite rsplit_colon_app by (apply Hcf; lia).
    rewrite parse_u16_fmt by lia. rewrite (proj2 (N.leb_gt n 65535)) by lia. done.
Qed.

End ConnectionsMore.

(** * Runs on concrete inputs *)

Lemma mock_resolve_port h p l a :
  mock_resolve h p = Ok l -> a ∈ l -> sa_port a = p.
Proof.
  unfold mock_resolve.
  destruct (String.eqb h "10.0.0.1"); [|destruct (String.eqb h "example.com")];
    intros Hr; try discriminate; injection Hr as <-;
    intros Ha%list_elem_of_singleton; by subst.
Qed.

(** Claim C1 (as amended): adding the same message twice to an empty
    channel leaves one entry with its id. *)
Lemma add_twice_same_id_witness :
  sorted_ts (get messages_new (channel msg_1_7)) /\
  filter (fun m => id m = id msg_1_7)
    (get (add msg_1_7 (add msg_1_7 messages_new)) (channel msg_1_7)) = [msg_1_7].
Proof.
  split; [apply sorted_ts_nil|].
  apply add_twice_same_id; [done|done|done|apply sorted_ts_nil| |].
  - intros m Hm. by apply elem_of_nil in Hm.
  - vm_compute. lia.
Defined.

(** Claim C6: removing id 1 from a store whose only channel 0 holds it. *)
Lemma remove_frame_witness :
  (forall k, k ∈ [0%nat] <-> is_Some (store_1_5 !! k)) /\
  fst (remove [0%nat] 1 store_1_5) = Some 0%nat.
Proof.
  assert (Ho : forall k, k ∈ [0%nat] <-> is_Some (store_1_5 !! k)).
  { intros k. unfold store_1_5, add, messages_new.
    rewrite lookup_insert_is_Some, lookup_empty, list_elem_of_singleton. simpl.
    split; [intros ->; by left|intros [H|[_ H]]; [done|by destruct H]]. }
  split; [exact Ho|].
  destruct (remove_frame [0%nat] store_1_5 1 Ho) as [H _].
  destruct (H 0%nat [mkMessage 0 0 1 [] 5 None]) as (Hf & _ & _).
  - reflexivity.
  - exists (mkMessage 0 0 1 [] 5 None). split; [by left|done].
  - intros c' l' m Hc' Hl' _. exfalso. revert Hl'.
    unfold store_1_5, add, messages_new. simpl.
    rewrite lookup_insert_ne, lookup_empty by congruence. discriminate.
  - exact Hf.
Defined.

(** Claim C3, as stated, fails: the row [10.0.0.1:8439] has no token, so its
    unattended dial fails with [InvalidToken], and the failure is in the
    map. *)
Lemma new_failed_dial_counterexample :
  let T0 := mock_transport true true [] [] mock_resolve in
  (@dial T0 "n" addr0 "h" None None).1 = Done (Err (EConnection InvalidToken)) /\
  @servers T0 (@connections_new T0 [mkServerRow "10.0.0.1:8439" "h" None] "n") !! addr0
    = Some (Connecting (Done (Err (EConnection InvalidToken)))).
Proof. vm_compute. split; reflexivity. Defined.

(** Claim C4 (as amended): the token login succeeds and the session goes
    non-blocking; the dial returns user 7 and never asks for a password. *)
Lemma connect_token_success_witness :
  let T0 := mock_transport true true [LoginSuccess sample_login] [] mock_resolve in
  @session_new T0 addr0 "h" = Ok ([LoginSuccess sample_login], []) /\
  @dial T0 "n" addr0 "h" (Some "tok"%string) None =
    (Done (Ok (@Synac_new T0 addr0 ([], []) 7)), []).
Proof.
  split; [reflexivity|].
  exact (@connect_token_success
           (mock_transport true true [LoginSuccess sample_login] [] mock_resolve)
           "n" addr0 "h" "tok" None _ _ ([], []) sample_login
           eq_refl eq_refl eq_refl).
Defined.

(** Claim C4, as stated, fails: the token login succeeds, but switching the
    session to non-blocking mode fails, and the dial returns that error
    instead of a session. *)
Lemma connect_token_success_counterexample :
  let T0 := mock_transport true false [LoginSuccess sample_login] [] mock_resolve in
  @session_read T0 ([LoginSuccess sample_login], []) = Ok (LoginSuccess sample_login, ([], [])) /\
  @dial T0 "n" addr0 "h" (Some "tok"%string) None = (Done (Err (ETransport 22)), []).
Proof. split; reflexivity. Defined.

(** Claim C5, as stated, fails: when the session cannot be opened, the dial
    without credentials returns the transport error, not [InvalidToken]. *)
Lemma connect_no_credential_counterexample :
  @dial (mock_transport false true [] [] mock_resolve) "n" addr0 "h" None None
    = (Done (Err (ETransport 111)), []).
Proof. reflexivity. Defined.

(** Claim C8 (as amended): a pending session whose first read fails. *)
Lemma try_read_error_aborts_witness :
  NoDup [addr0] /\ (try_read poll_cb (fun _ => []) 0 Unlocked [addr0] svs_poll tt).1
    = PollErr (ETransport 32) /\
  ps_servers (try_read poll_cb (fun _ => []) 0 Unlocked [addr0] svs_poll tt).2 !! addr0
    = Some (Connected (Ok synac_poll)).
Proof.
  split; [by apply NoDup_singleton|]. split; [reflexivity|].
  destruct (@try_read_error_aborts T_poll unit poll_cb (fun _ => []) 0 [addr0] svs_poll
              tt (ETransport 32)
              (try_read poll_cb (fun _ => []) 0 Unlocked [addr0] svs_poll tt).2
              (NoDup_singleton _) eq_refl)
    as (pre & k & post & c & s & l & se & Ho & Hc & Hj & Hl & Hk & _).
  destruct pre as [|? [|]]; [|discriminate..].
  simpl in Ho. injection Ho as Hk0 _. subst k.
  unfold svs_poll in Hc. rewrite lookup_singleton_eq in Hc. injection Hc as <-.
  simpl in Hj. injection Hj as <-.
  vm_compute in Hl. injection Hl as <- <-. rewrite Hk. reflexivity.
Defined.

(** Claim C8, as stated, fails: the entry of the session whose read fails
    does not stay unchanged; the pending [Connecting] entry is resolved to
    [Connected] by the join that precedes the read. *)
Lemma try_read_error_aborts_counterexample :
  (try_read poll_cb (fun _ => []) 0 Unlocked [addr0] svs_poll tt).1 = PollErr (ETransport 32) /\
  ps_servers (try_read poll_cb (fun _ => []) 0 Unlocked [addr0] svs_poll tt).2 !! addr0
    <> svs_poll !! addr0.
Proof. vm_compute. split; [reflexivity|discriminate]. Defined.

(** Claim C9 (as amended): with a resolver that knows [example.com], both
    forms resolve, with the default port and with port 9000. *)
Lemma parse_addr_spec_witness :
  let T0 := mock_transport true true [] [] mock_resolve in
  (forall h p l a, @to_socket_addrs T0 h p = Ok l -> a ∈ l -> sa_port a = p) /\
  @parse_addr T0 "example.com" = Some (mkSocketAddr (V4 1572395042) DEFAULT_PORT) /\
  @parse_addr T0 "example.com:9000" = Some (mkSocketAddr (V4 1572395042) 9000).
Proof.
  split; [exact mock_resolve_port|].
  destruct (@parse_addr_spec (mock_transport true true [] [] mock_resolve) mock_resolve_port)
    as (H1 & _ & H2 & _).
  rewrite H1, H2. split; reflexivity.
Defined.

(** Claim C9, as stated, fails: the result depends on name resolution; on
    a host where [example.com] does not resolve, [parse_addr] returns
    [None] for both inputs. *)
Lemma parse_addr_spec_counterexample :
  @parse_addr (mock_transport true true [] [] no_resolve) "example.com" = None /\
  @parse_addr (mock_transport true true [] [] no_resolve) "example.com:9000" = None.
Proof. split; reflexivity. Defined.

(** A run of adds and removes from the empty store keeps every timeline sorted. *)
Lemma run_ops_sorted_witness :
  all_sorted messages_new /\
  all_sorted (run_ops messages_new [OpAdd msg_1_7; OpAdd msg_2_7; OpRemove [0%nat] 1%nat]).
Proof.
  assert (H : all_sorted messages_new).
  { intros c l Hl. unfold messages_new in Hl. by rewrite lookup_empty in Hl. }
  split; [exact H|]. exact (run_ops_sorted messages_new _ H).
Defined.

(** Re-adding id 1 at timestamp 5 to [store_1_5], which holds a message
    of that id and timestamp in channel 0: the message is updated in place. *)
Lemma add_upsert_witness :
  sorted_ts (get store_1_5 (channel msg_1_5_edit)) /\
  exists j m0, get store_1_5 0%nat !! j = Some m0 /\ id m0 = 1%nat /\
    get (add msg_1_5_edit store_1_5) 0%nat = <[j := msg_1_5_edit]> (get store_1_5 0%nat).
Proof.
  assert (Hg : get store_1_5 (channel msg_1_5_edit) = [mkMessage 0 0 1 [] 5 None]) by reflexivity.
  assert (Hs : sorted_ts (get store_1_5 (channel msg_1_5_edit))).
  { rewrite Hg. intros [|i] [|j] mi mj Hij Hi Hj; simpl in *; try lia.
    - destruct j; discriminate.
    - destruct i; discriminate. }
  split; [exact Hs|].
  apply (proj2 (add_upsert store_1_5 msg_1_5_edit Hs)).
  exists (mkMessage 0 0 1 [] 5 None). rewrite Hg. split; [by left|]. done.
Defined.

(** Adding the fresh id 2 to [store_1_5] and removing it again. *)
Lemma add_remove_roundtrip_witness :
  remove [0%nat] (id msg_2_7) (add msg_2_7 store_1_5) =
    (Some 0%nat, <[0%nat := get store_1_5 0%nat]> store_1_5).
Proof.
  apply (add_remove_roundtrip [0%nat] store_1_5 msg_2_7).
  - by left.
  - intros c l x Hl Hx. unfold store_1_5, add in Hl.
    apply lookup_insert_Some in Hl as [[_ Hl]|[_ Hl]].
    + assert (Hv : l = [mkMessage 0 0 1 [] 5 None]) by (rewrite <- Hl; reflexivity).
      rewrite Hv in Hx. apply list_elem_of_singleton in Hx as ->. discriminate.
    + unfold messages_new in Hl. by rewrite lookup_empty in Hl.
Defined.


(** A token dial accepted by the server returns a fresh session handle. *)
Lemma dial_fresh_witness :
  let T0 := mock_transport true true [LoginSuccess sample_login] [] mock_resolve in
  (@dial T0 "n" addr0 "h" (Some "tok"%string) None).1 =
    Done (Ok (@Synac_new T0 addr0 ([], []) 7)) /\
  @current_channel T0 (@Synac_new T0 addr0 ([], []) 7) = None.
Proof.
  assert (H : (@dial (mock_transport true true [LoginSuccess sample_login] [] mock_resolve)
                 "n" addr0 "h" (Some "tok"%string) None).1 =
              Done (Ok (@Synac_new (mock_transport true true [LoginSuccess sample_login] [] mock_resolve)
                          addr0 ([], []) 7))) by reflexivity.
  split; [exact H|].
  exact (proj1 (proj2 (dial_fresh _ _ _ _ _ _ H))).
Defined.

(** A token rejected with [ERR_UNKNOWN_USER], then a successful password
    login: the new token is saved. *)
Lemma dial_password_phase_witness :
  @session_new T_retry addr0 "h" = Ok ([Packet_Err ERR_UNKNOWN_USER; LoginSuccess sample_login], []) /\
  @dial T_retry "n" addr0 "h" (Some "old"%string) (Some ("pw"%string, tt)) =
    (Done (Ok (@Synac_new T_retry addr0 ([], []) 7)), [PasswordAsked; TokenSaved "tok" addr0]).
Proof.
  assert (H0 : @session_new T_retry addr0 "h" =
                 Ok ([Packet_Err ERR_UNKNOWN_USER; LoginSuccess sample_login], [])) by reflexivity.
  split; [exact H0|].
  destruct (dial_password_phase (T := T_retry) "n" addr0 "h" (Some "old"%string) (Some ("pw"%string, tt))
              _ ([LoginSuccess sample_login], []) H0) as (_ & _ & Hok & _).
  - right. exists "old"%string, ([Packet_Err ERR_UNKNOWN_USER; LoginSuccess sample_login], []),
      ERR_UNKNOWN_USER. split; [done|]. split; [reflexivity|]. split; [reflexivity|by left].
  - rewrite (Hok "pw"%string tt ([LoginSuccess sample_login], []) ([], []) sample_login
               eq_refl eq_refl eq_refl). reflexivity.
Defined.

(** A token login answered by an unrelated packet. *)
Lemma dial_token_other_reply_witness :
  let T0 := mock_transport true true [OtherPacket 3] [] mock_resolve in
  @dial T0 "n" addr0 "h" (Some "tok"%string) (Some ("pw"%string, tt)) =
    (Done (Err (EConnection (InvalidPacket (OtherPacket 3)))), []).
Proof.
  apply (dial_token_other_reply (T := mock_transport true true [OtherPacket 3] [] mock_resolve)
           "n" addr0 "h" "tok" (Some ("pw"%string, tt))
           ([OtherPacket 3], []) ([OtherPacket 3], []) ([], []) (OtherPacket 3));
    try reflexivity; discriminate.
Defined.
